(** * td::ObjectPool (tdutils/td/utils/ObjectPool.h)

    A sequential model of the generation-stamped object pool: the arena of
    [Storage] cells, the free list threaded through their [next] fields,
    the chunk allocator, and the two handle types [WeakPtr] and [OwnerPtr].

    Memory is an arena: a [Storage*] is an index into [heap], [nullptr] is
    [None].  Every operation runs in the monad [M], which threads the pool,
    fails ([None]) where the C++ dereferences a null or dangling pointer,
    and logs the atomic accesses, fences and payload operations it performs
    in program order. *)

From stdpp Require Import base option list.
From Stdlib Require Import ZArith Lia.

(** ** 32-bit signed arithmetic *)

Definition INT32_MIN : Z := -2147483648.
Definition INT32_MAX : Z := 2147483647.

(** Two's-complement wrap-around of [std::atomic<int32>::fetch_add]. *)
Definition int32_wrap (z : Z) : Z :=
  ((z + 2147483648) mod 4294967296 - 2147483648)%Z.

Definition CHUNK_SIZE : nat := 64.

(** ** Program-order log *)

Inductive memory_order : Set :=
| memory_order_relaxed
| memory_order_acquire
| memory_order_release.

Inductive atomic_var : Set :=
| var_head
| var_chunk_list
| var_storage_count
| var_generation (s : nat).

Inductive event : Set :=
| ev_load (v : atomic_var) (mo : memory_order)
| ev_cas (v : atomic_var) (ok : bool) (success failure : memory_order)
| ev_fetch_add (v : atomic_var) (delta : Z) (mo : memory_order)
| ev_fence (mo : memory_order)
| ev_new_chunk (base : nat)
| ev_delete_chunk (base : nat)
| ev_init_data (s : nat)
| ev_clear_data (s : nat).

#[global] Instance memory_order_eq_dec : EqDecision memory_order.
Proof. solve_decision. Defined.
#[global] Instance atomic_var_eq_dec : EqDecision atomic_var.
Proof. solve_decision. Defined.
#[global] Instance event_eq_dec : EqDecision event.
Proof. solve_decision. Defined.

(** Position of the first occurrence of an event in a log. *)
Fixpoint index_of (e : event) (l : list event) : option nat :=
  match l with
  | [] => None
  | x :: l' => if decide (x = e) then Some O else S <$> index_of e l'
  end.

(** [e1] is logged, and [e2] is logged strictly later than the first [e1]. *)
Definition occurs_before (e1 e2 : event) (l : list event) : Prop :=
  ∃ i j, index_of e1 l = Some i ∧ index_of e2 l = Some j ∧ (i < j)%nat.

(** ** Handles *)

(** [WeakPtr]: a generation stamp and a slot reference. *)
Record WeakPtr : Set := mkWeakPtr {
  weak_generation_ : Z;
  weak_storage_ : option nat
}.

(** [WeakPtr()] and the state left by [clear()]. *)
Definition WeakPtr_default : WeakPtr := mkWeakPtr (-1) None.
Definition WeakPtr_clear (w : WeakPtr) : WeakPtr := mkWeakPtr (-1) None.
Definition WeakPtr_empty (w : WeakPtr) : bool := bool_decide (weak_storage_ w = None).

(** [OwnerPtr]: a slot reference and a reference to the parent pool (pools
    are named by a number; the model runs one pool at a time). *)
Record OwnerPtr : Set := mkOwnerPtr {
  storage_ : option nat;
  parent_ : option nat
}.

Definition OwnerPtr_default : OwnerPtr := mkOwnerPtr None None.
Definition OwnerPtr_empty (h : OwnerPtr) : bool := bool_decide (storage_ h = None).

(** Move construction: the new handle and the moved-from source. *)
Definition OwnerPtr_move (other : OwnerPtr) : OwnerPtr * OwnerPtr :=
  (mkOwnerPtr (storage_ other) (parent_ other), mkOwnerPtr None None).

(** [operator=(OwnerPtr&&)] on two distinct objects ([this != &other]):
    the target after the assignment and the moved-from source. *)
Definition OwnerPtr_move_assign (this other : OwnerPtr) : OwnerPtr * OwnerPtr :=
  (mkOwnerPtr (storage_ other) (parent_ other), mkOwnerPtr None None).

(** [OwnerPtr::release()]: hands out the raw slot and empties the handle. *)
Definition OwnerPtr_release (h : OwnerPtr) : option nat * OwnerPtr :=
  (storage_ h, mkOwnerPtr None (parent_ h)).

Section Pool.

Context {DataT : Type}.
(** What the template requires of [DataT]: a default value and [clear()]. *)
Variable DataT_default : DataT.
Variable DataT_clear : DataT → DataT.
(** The identity of the pool object ([this]). *)
Variable this : nat.

Record Storage : Type := mkStorage {
  data : DataT;
  next : option nat;
  generation : Z
}.

(** A default-constructed [Storage]: [next = nullptr], [generation{1}]. *)
Definition Storage_default : Storage := mkStorage DataT_default None 1.

Record ObjectPool : Type := mkPool {
  storage_count_ : Z;
  head_ : option nat;
  check_empty_flag_ : bool;
  chunk_list_ : option nat;
  heap : list Storage
}.

(** [ObjectPool() = default]. *)
Definition ObjectPool_default : ObjectPool := mkPool 0 None false None [].

Definition set_heap (h : list Storage) (p : ObjectPool) : ObjectPool :=
  mkPool (storage_count_ p) (head_ p) (check_empty_flag_ p) (chunk_list_ p) h.
Definition set_head (x : option nat) (p : ObjectPool) : ObjectPool :=
  mkPool (storage_count_ p) x (check_empty_flag_ p) (chunk_list_ p) (heap p).
Definition set_chunk_list (x : option nat) (p : ObjectPool) : ObjectPool :=
  mkPool (storage_count_ p) (head_ p) (check_empty_flag_ p) x (heap p).
Definition set_storage_count (c : Z) (p : ObjectPool) : ObjectPool :=
  mkPool c (head_ p) (check_empty_flag_ p) (chunk_list_ p) (heap p).
Definition set_flag (b : bool) (p : ObjectPool) : ObjectPool :=
  mkPool (storage_count_ p) (head_ p) b (chunk_list_ p) (heap p).

(** ** The monad: pool state, failure, program-order log *)

Definition M (A : Type) : Type := ObjectPool → option (A * ObjectPool * list event).

#[local] Instance M_ret : MRet M := λ A a p, Some (a, p, []).
#[local] Instance M_bind : MBind M := λ A B k m p,
  match m p with
  | None => None
  | Some (a, p1, l1) =>
      match k a p1 with
      | None => None
      | Some (b, p2, l2) => Some (b, p2, l1 ++ l2)
      end
  end.
Definition fail {A} : M A := λ _, None.
Definition emit (e : event) : M unit := λ p, Some (tt, p, [e]).
Definition get_pool : M ObjectPool := λ p, Some (p, p, []).
Definition modify (f : ObjectPool → ObjectPool) : M unit := λ p, Some (tt, f p, []).

(** Dereference of a [Storage*]: fails on null and outside the arena. *)
Definition deref (s : option nat) : M (nat * Storage) :=
  λ p, match s with
       | None => None
       | Some a => match heap p !! a with
                   | None => None
                   | Some st => Some ((a, st), p, [])
                   end
       end.

Definition write_storage (a : nat) (st : Storage) : M unit :=
  modify (λ p, set_heap (<[a := st]> (heap p)) p).

Definition store_next (s : option nat) (n : option nat) : M unit :=
  '(a, st) ← deref s;
  write_storage a (mkStorage (data st) n (generation st)).

(** Atomic accesses to [head_], [chunk_list_], [storage_count_] and a
    slot's [generation]. *)
Definition load_head (mo : memory_order) : M (option nat) :=
  emit (ev_load var_head mo);;
  p ← get_pool; mret (head_ p).

(** [compare_exchange_weak], without spurious failures. *)
Definition cas_head (expected desired : option nat) (success failure : memory_order)
  : M bool :=
  p ← get_pool;
  if decide (head_ p = expected)
  then emit (ev_cas var_head true success failure);;
       modify (set_head desired);; mret true
  else emit (ev_cas var_head false success failure);; mret false.

Definition load_chunk_list (mo : memory_order) : M (option nat) :=
  emit (ev_load var_chunk_list mo);;
  p ← get_pool; mret (chunk_list_ p).

Definition cas_chunk_list (expected desired : option nat)
  (success failure : memory_order) : M bool :=
  p ← get_pool;
  if decide (chunk_list_ p = expected)
  then emit (ev_cas var_chunk_list true success failure);;
       modify (set_chunk_list desired);; mret true
  else emit (ev_cas var_chunk_list false success failure);; mret false.

Definition fetch_add_storage_count (delta : Z) (mo : memory_order) : M Z :=
  emit (ev_fetch_add var_storage_count delta mo);;
  p ← get_pool;
  modify (set_storage_count (int32_wrap (storage_count_ p + delta)%Z));;
  mret (storage_count_ p).

Definition fetch_add_generation (s : option nat) (delta : Z) (mo : memory_order)
  : M Z :=
  '(a, st) ← deref s;
  emit (ev_fetch_add (var_generation a) delta mo);;
  write_storage a (mkStorage (data st) (next st) (int32_wrap (generation st + delta)%Z));;
  mret (generation st).

Definition load_generation (s : option nat) (mo : memory_order) : M Z :=
  '(a, st) ← deref s;
  emit (ev_load (var_generation a) mo);;
  mret (generation st).

(** ** Storage *)

(** [init_data]: [data = DataT(args...)]. *)
Definition Storage_init_data (s : option nat) (d : DataT) : M unit :=
  '(a, st) ← deref s;
  emit (ev_init_data a);;
  write_storage a (mkStorage d (next st) (generation st)).

Definition Storage_destroy_data (s : option nat) : M unit :=
  fetch_add_generation s 1 memory_order_relaxed;;
  emit (ev_fence memory_order_release);;
  '(a, st) ← deref s;
  emit (ev_clear_data a);;
  write_storage a (mkStorage (DataT_clear (data st)) (next st) (generation st)).

(** ** Free list and chunk allocator *)

(** Iterations granted to each [while (true)] retry loop.  Without
    contention the first compare-and-swap succeeds, so one is enough
    (see [release_storage_loop_fuel] and its siblings). *)
Definition retry_fuel : nat := 1.

Fixpoint release_storage_loop (fuel : nat) (storage : option nat) : M unit :=
  match fuel with
  | O => fail
  | S f =>
      save_head ← load_head memory_order_relaxed;
      store_next storage save_head;;
      ok ← cas_head save_head storage memory_order_release memory_order_relaxed;
      if ok : bool then mret tt else release_storage_loop f storage
  end.

Definition release_storage (storage : option nat) : M unit :=
  release_storage_loop retry_fuel storage.

(** [new Storage[CHUNK_SIZE]]: the chunk is appended to the arena. *)
Definition new_chunk : M nat :=
  p ← get_pool;
  emit (ev_new_chunk (length (heap p)));;
  modify (set_heap (heap p ++ replicate CHUNK_SIZE Storage_default));;
  mret (length (heap p)).

(** [for (; i < ...; i++) chunk[i].next = &chunk[i + 1]], [count] rounds. *)
Fixpoint link_chunk (chunk i count : nat) : M unit :=
  match count with
  | O => mret tt
  | S c => store_next (Some (chunk + i)%nat) (Some (chunk + (i + 1))%nat);;
           link_chunk chunk (S i) c
  end.

Fixpoint publish_chunk_loop (fuel : nat) (chunk : nat) : M unit :=
  match fuel with
  | O => fail
  | S f =>
      save_head ← load_head memory_order_relaxed;
      store_next (Some (chunk + (CHUNK_SIZE - 2))%nat) save_head;;
      ok ← cas_head save_head (Some (chunk + 1)%nat)
             memory_order_release memory_order_relaxed;
      if ok : bool then mret tt else publish_chunk_loop f chunk
  end.

Fixpoint track_chunk_loop (fuel : nat) (chunk_node : nat) : M unit :=
  match fuel with
  | O => fail
  | S f =>
      save_head ← load_chunk_list memory_order_relaxed;
      store_next (Some chunk_node) save_head;;
      ok ← cas_chunk_list save_head (Some chunk_node)
             memory_order_release memory_order_relaxed;
      if ok : bool then mret tt else track_chunk_loop f chunk_node
  end.

Definition allocate_chunk : M nat :=
  chunk ← new_chunk;
  fetch_add_storage_count (Z.of_nat CHUNK_SIZE) memory_order_relaxed;;
  link_chunk chunk 1 (CHUNK_SIZE - 2);;
  store_next (Some (chunk + (CHUNK_SIZE - 2))%nat) None;;
  (if decide (2 < CHUNK_SIZE)%nat then publish_chunk_loop retry_fuel chunk
   else mret tt);;
  track_chunk_loop retry_fuel (chunk + (CHUNK_SIZE - 1))%nat;;
  mret chunk.

Fixpoint get_storage_loop (fuel : nat) : M nat :=
  match fuel with
  | O => fail
  | S f =>
      res ← load_head memory_order_acquire;
      match res with
      | None => allocate_chunk
      | Some _ =>
          '(a, st) ← deref res;
          ok ← cas_head res (next st) memory_order_release memory_order_relaxed;
          if ok : bool then mret a else get_storage_loop f
      end
  end.

Definition get_storage : M nat :=
  res ← load_head memory_order_acquire;
  match res with
  | None => allocate_chunk
  | Some _ => get_storage_loop retry_fuel
  end.

(** ** Pool *)

Definition create (d : DataT) : M OwnerPtr :=
  storage ← get_storage;
  Storage_init_data (Some storage) d;;
  mret (mkOwnerPtr (Some storage) (Some this)).

Definition create_empty : M OwnerPtr :=
  storage ← get_storage;
  mret (mkOwnerPtr (Some storage) (Some this)).

Definition set_check_empty (flag : bool) : M unit := modify (set_flag flag).

(** [release(OwnerPtr&&)]: returns the state the argument is left in. *)
Definition release (owner_ptr : OwnerPtr) : M OwnerPtr :=
  let '(storage, owner_ptr') := OwnerPtr_release owner_ptr in
  Storage_destroy_data storage;;
  release_storage storage;;
  mret owner_ptr'.

(** [~ObjectPool]: walks the chunk list; [delete[]] is logged. *)
Fixpoint destroy_loop (fuel : nat) (node : option nat) : M unit :=
  match node with
  | None => mret tt
  | Some _ =>
      match fuel with
      | O => fail
      | S f =>
          '(a, st) ← deref node;
          emit (ev_delete_chunk (a - (CHUNK_SIZE - 1))%nat);;
          destroy_loop f (next st)
      end
  end.

Definition ObjectPool_destroy : M unit :=
  node ← load_chunk_list memory_order_relaxed;
  p ← get_pool;
  destroy_loop (length (heap p)) node.

(** ** OwnerPtr *)

(** [reset()]; the temporary handed to [release] comes back empty, so its
    destructor does nothing. *)
Definition OwnerPtr_reset (h : OwnerPtr) : M OwnerPtr :=
  match storage_ h with
  | Some tmp =>
      match parent_ h with
      | Some _ =>
          release (mkOwnerPtr (Some tmp) (parent_ h));;
          mret (mkOwnerPtr None (parent_ h))
      | None => fail
      end
  | None => mret h
  end.

(** [~OwnerPtr]. *)
Definition OwnerPtr_destroy (h : OwnerPtr) : M OwnerPtr := OwnerPtr_reset h.

(** [*h] read and [*h = d] through [get()]. *)
Definition OwnerPtr_get (h : OwnerPtr) : M DataT :=
  '(a, st) ← deref (storage_ h); mret (data st).

Definition OwnerPtr_set (h : OwnerPtr) (d : DataT) : M unit :=
  '(a, st) ← deref (storage_ h);
  write_storage a (mkStorage d (next st) (generation st)).

Definition OwnerPtr_get_weak (h : OwnerPtr) : M WeakPtr :=
  g ← load_generation (storage_ h) memory_order_relaxed;
  mret (mkWeakPtr g (storage_ h)).

Definition OwnerPtr_generation (h : OwnerPtr) : M Z :=
  load_generation (storage_ h) memory_order_relaxed.

(** ** WeakPtr *)

Definition WeakPtr_get (w : WeakPtr) : M DataT :=
  '(a, st) ← deref (weak_storage_ w); mret (data st).

Definition is_alive (w : WeakPtr) : M bool :=
  match weak_storage_ w with
  | None => mret false
  | Some _ =>
      emit (ev_fence memory_order_acquire);;
      g ← load_generation (weak_storage_ w) memory_order_relaxed;
      mret (bool_decide (weak_generation_ w = g))
  end.

Definition is_alive_unsafe (w : WeakPtr) : M bool :=
  match weak_storage_ w with
  | None => mret false
  | Some _ =>
      g ← load_generation (weak_storage_ w) memory_order_relaxed;
      mret (bool_decide (weak_generation_ w = g))
  end.

(** ** Sequential executions

    A world is the pool together with the [OwnerPtr] variables of the
    client program; an execution is a list of client statements. *)

Record World : Type := mkWorld {
  pool : ObjectPool;
  handles : list OwnerPtr
}.

Definition World_init : World := mkWorld ObjectPool_default [].

Inductive op : Type :=
| op_create (d : DataT)            (* a new variable: auto h = pool.create(d) *)
| op_create_empty                  (* a new variable: auto h = pool.create_empty() *)
| op_reset (i : nat)               (* handles[i].reset(), or its scope ends *)
| op_release (i : nat)             (* pool.release(std::move(handles[i])) *)
| op_move (i : nat)                (* a new variable: OwnerPtr h(std::move(handles[i])) *)
| op_move_assign (i j : nat)       (* handles[i] = std::move(handles[j]) *)
| op_read (i : nat)                (* reads *handles[i] *)
| op_write (i : nat) (d : DataT)   (* *handles[i] = d *)
| op_get_weak (i : nat)            (* handles[i].get_weak() *)
| op_set_check_empty (flag : bool) (* pool.set_check_empty(flag) *).

Definition exec_op (o : op) (w : World) : option (World * list event) :=
  match o with
  | op_create d =>
      '(h, p, l) ← create d (pool w);
      Some (mkWorld p (handles w ++ [h]), l)
  | op_create_empty =>
      '(h, p, l) ← create_empty (pool w);
      Some (mkWorld p (handles w ++ [h]), l)
  | op_reset i =>
      h ← handles w !! i;
      '(h', p, l) ← OwnerPtr_reset h (pool w);
      Some (mkWorld p (<[i := h']> (handles w)), l)
  | op_release i =>
      h ← handles w !! i;
      '(h', p, l) ← release h (pool w);
      Some (mkWorld p (<[i := h']> (handles w)), l)
  | op_move i =>
      h ← handles w !! i;
      let '(new, old) := OwnerPtr_move h in
      Some (mkWorld (pool w) (<[i := old]> (handles w) ++ [new]), [])
  | op_move_assign i j =>
      hi ← handles w !! i;
      hj ← handles w !! j;
      if decide (i = j) then Some (w, [])
      else
        let '(target, source) := OwnerPtr_move_assign hi hj in
        Some (mkWorld (pool w) (<[i := target]> (<[j := source]> (handles w))), [])
  | op_read i =>
      h ← handles w !! i;
      '(_, p, l) ← OwnerPtr_get h (pool w);
      Some (mkWorld p (handles w), l)
  | op_write i d =>
      h ← handles w !! i;
      '(_, p, l) ← OwnerPtr_set h d (pool w);
      Some (mkWorld p (handles w), l)
  | op_get_weak i =>
      h ← handles w !! i;
      '(_, p, l) ← OwnerPtr_get_weak h (pool w);
      Some (mkWorld p (handles w), l)
  | op_set_check_empty flag =>
      '(_, p, l) ← set_check_empty flag (pool w);
      Some (mkWorld p (handles w), l)
  end.

Fixpoint run (ops : list op) (w : World) : option (World * list event) :=
  match ops with
  | [] => Some (w, [])
  | o :: ops' =>
      '(w1, l1) ← exec_op o w;
      '(w2, l2) ← run ops' w1;
      Some (w2, l1 ++ l2)
  end.

Definition reachable (w : World) : Prop :=
  ∃ ops l, run ops World_init = Some (w, l).

(** The generation of slot [a]; a slot not yet allocated will start at 1. *)
Definition gen_of (p : ObjectPool) (a : nat) : Z :=
  from_option generation 1%Z (heap p !! a).

(** The increment retirement applies to a slot's generation. *)
Definition retire_event (a : nat) : event :=
  ev_fetch_add (var_generation a) 1 memory_order_relaxed.

(** How often slot [a] was retired, read off the log. *)
Definition retirements (a : nat) (l : list event) : nat :=
  length (filter (λ e, e = retire_event a) l).

(** The slot held by a handle that is about to be retired by [o]. *)
Definition retired_by (o : op) (w : World) : option nat :=
  match o with
  | op_reset i | op_release i => h ← handles w !! i; storage_ h
  | _ => None
  end.

(** The free list, as the addresses reached from [head_] through [next]. *)
Fixpoint free_list_is (h : list Storage) (head : option nat) (fl : list nat) : Prop :=
  match fl with
  | [] => head = None
  | a :: fl' => head = Some a ∧ ∃ st, h !! a = Some st ∧ free_list_is h (next st) fl'
  end.

(** Some variable of the client holds slot [a]. *)
Definition owns (w : World) (a : nat) : Prop :=
  ∃ i h, handles w !! i = Some h ∧ storage_ h = Some a.

(** [n] successive retirements applied to a generation. *)
Definition bump (n : nat) (g : Z) : Z := Nat.iter n (λ x, int32_wrap (x + 1)) g.

(** [n] rounds of create-then-retire; [k] is the index the first created
    handle gets. *)
Fixpoint churn (d : DataT) (k n : nat) : list op :=
  match n with
  | O => []
  | S n' => op_create d :: op_reset k :: churn d (S k) n'
  end.

(** An execution that recycles slot 0 over and over: create and retire
    once, [m] more rounds of the same, then create [d'] in the slot. *)
Definition recycle (d d' : DataT) (m : nat) : list op :=
  [op_create d; op_reset 0%nat] ++ churn d 1 m ++ [op_create d'].

(** A slot that is not the last cell of its chunk (the chunk's tracking
    node). *)
Definition usable (a : nat) : Prop := (a mod CHUNK_SIZE)%nat ≠ (CHUNK_SIZE - 1)%nat.

(** Well-formed worlds: [fl] is the free list; free and owned slots are
    allocated, usable and pairwise distinct; the arena is made of whole
    chunks. *)
Record wf (w : World) (fl : list nat) : Prop := mk_wf {
  wf_free : free_list_is (heap (pool w)) (head_ (pool w)) fl;
  wf_nodup : NoDup fl;
  wf_usable : ∀ a, a ∈ fl → usable a;
  wf_owned : ∀ a, owns w a → (a < length (heap (pool w)))%nat ∧ usable a ∧ (a ∉ fl);
  wf_unique : ∀ i j hi hj a,
    handles w !! i = Some hi → handles w !! j = Some hj →
    storage_ hi = Some a → storage_ hj = Some a → i = j;
  wf_chunks : (length (heap (pool w)) mod CHUNK_SIZE)%nat = 0%nat
}.

(** An allocated slot that is neither free nor owned: out of circulation. *)
Definition leaked (w : World) (fl : list nat) (a : nat) : Prop :=
  (a < length (heap (pool w)))%nat ∧ (a ∉ fl) ∧ ¬ owns w a.

(** [w'] with free list [fl'] is well formed, and every slot leaked in [w]
    is still leaked, with its cell untouched. *)
Definition step_ok (w : World) (fl : list nat) (w' : World) (fl' : list nat) : Prop :=
  wf w' fl'
  ∧ ∀ a, leaked w fl a →
         leaked w' fl' a ∧ heap (pool w') !! a = heap (pool w) !! a.

(** An execution that takes every slot of [n] chunks: 63 creations per
    chunk, the first of which finds the free list empty. *)
Definition fill_chunks (n : nat) : list op := replicate (63 * n) op_create_empty.

(** ** Results of the operations, in closed form *)

(** What retirement leaves in the cell. *)
Definition retired_cell (st : Storage) (n : option nat) : Storage :=
  mkStorage (DataT_clear (data st)) n (int32_wrap (generation st + 1)%Z).

Definition destroy_data_log (a : nat) : list event :=
  [ev_fetch_add (var_generation a) 1 memory_order_relaxed;
   ev_fence memory_order_release;
   ev_clear_data a].

Definition release_storage_log : list event :=
  [ev_load var_head memory_order_relaxed;
   ev_cas var_head true memory_order_release memory_order_relaxed].

Definition pop_log : list event :=
  [ev_load var_head memory_order_acquire;
   ev_load var_head memory_order_acquire;
   ev_cas var_head true memory_order_release memory_order_relaxed].

Definition with_next (n : option nat) (st : Storage) : Storage :=
  mkStorage (data st) n (generation st).

(** The cells of a chunk after the linking loop. *)
Fixpoint link_cells (chunk i count : nat) (C : list Storage) : list Storage :=
  match count with
  | O => C
  | S c => link_cells chunk (S i) c (alter (with_next (Some (chunk + (i + 1))%nat)) i C)
  end.

(** The 64 cells of a fresh chunk as [allocate_chunk] leaves them: cell 0
    untouched, cells 1..61 linked to their successor, cell 62 linked to
    the free-list head found at publication, cell 63 linked to the chunk
    list found at publication. *)
Definition chunk_cells (chunk : nat) (h c : option nat) : list Storage :=
  Storage_default
  :: map (λ i, mkStorage DataT_default (Some (chunk + (i + 1))%nat) 1) (seq 1 61)
  ++ [mkStorage DataT_default h 1; mkStorage DataT_default c 1].

Definition allocate_chunk_log (chunk : nat) : list event :=
  [ev_new_chunk chunk;
   ev_fetch_add var_storage_count 64 memory_order_relaxed;
   ev_load var_head memory_order_relaxed;
   ev_cas var_head true memory_order_release memory_order_relaxed;
   ev_load var_chunk_list memory_order_relaxed;
   ev_cas var_chunk_list true memory_order_release memory_order_relaxed].

Definition allocate_chunk_pool (p : ObjectPool) : ObjectPool :=
  mkPool (int32_wrap (storage_count_ p + 64)%Z)
         (Some (length (heap p) + 1)%nat)
         (check_empty_flag_ p)
         (Some (length (heap p) + 63)%nat)
         (heap p ++ chunk_cells (length (heap p)) (head_ p) (chunk_list_ p)).

Definition lift_flag {A} (b : bool) (r : option (A * ObjectPool * list event))
  : option (A * ObjectPool * list event) :=
  match r with
  | Some (a, p, l) => Some (a, set_flag b p, l)
  | None => None
  end.

(** [m] behaves the same whatever the flag holds, and leaves it alone. *)
Definition flag_blind {A} (m : M A) : Prop :=
  ∀ b p, m (set_flag b p) = lift_flag b (m p).

(** The chunk list, as the tracking nodes reached from [chunk_list_]
    through [next]: the last cell of chunk [k - 1], then of chunk [k - 2],
    down to chunk 0. *)
Fixpoint chunk_list_is (h : list Storage) (node : option nat) (k : nat) : Prop :=
  match k with
  | O => node = None
  | S k' =>
      node = Some (CHUNK_SIZE * k' + (CHUNK_SIZE - 1))%nat
      ∧ ∃ st, h !! (CHUNK_SIZE * k' + (CHUNK_SIZE - 1))%nat = Some st
              ∧ chunk_list_is h (next st) k'
  end.

(** A pool made of [k] chunks: the arena holds their cells, the counter
    its size, the chunk list their tracking nodes. *)
Record pool_sound (p : ObjectPool) (k : nat) : Prop := mk_pool_sound {
  ps_length : length (heap p) = (CHUNK_SIZE * k)%nat;
  ps_count : storage_count_ p = int32_wrap (Z.of_nat (length (heap p)));
  ps_chunks : chunk_list_is (heap p) (chunk_list_ p) k
}.

(** Every non-empty handle points back to this pool. *)
Definition parents_ok (hs : list OwnerPtr) : Prop :=
  ∀ i h, hs !! i = Some h → is_Some (storage_ h) → parent_ h = Some this.

(** The chunks in the order the destructor deletes them: newest first. *)
Definition chunk_bases (k : nat) : list nat :=
  (λ j, CHUNK_SIZE * j)%nat <$> reverse (seq 0 k).

(** Statement [o] writes or retires through variable [i]. *)
Definition acts_on (o : op) (i : nat) : Prop :=
  match o with
  | op_reset j | op_release j | op_write j _ => j = i
  | _ => False
  end.

(** How many statements of [ops], run from [w], retire slot [a]: a
    statement counts when it is a [reset] or [release] of a variable that
    holds [a] at that point. *)
Fixpoint retired_in (a : nat) (ops : list op) (w : World) : nat :=
  match ops with
  | [] => 0
  | o :: ops' =>
      ((if decide (retired_by o w = Some a) then 1 else 0)
       + match exec_op o w with
         | Some (w1, _) => retired_in a ops' w1
         | None => 0
         end)%nat
  end.

(** ** Functional characterisation of the operations *)

Ltac munfold :=
  unfold mbind, M_bind, mret, M_ret, emit, get_pool, modify, fail; simpl.

Lemma mbind_Some {A B} (m : M A) (k : A → M B) p a p1 l1 :
  m p = Some (a, p1, l1) →
  (m ≫= k) p = match k a p1 with
               | Some (b, p2, l2) => Some (b, p2, l1 ++ l2)
               | None => None
               end.
Proof. intros H. unfold mbind, M_bind. by rewrite H. Qed.

Lemma mbind_None {A B} (m : M A) (k : A → M B) p :
  m p = None → (m ≫= k) p = None.
Proof. intros H. unfold mbind, M_bind. by rewrite H. Qed.

Lemma deref_Some (p : ObjectPool) a st :
  heap p !! a = Some st → deref (Some a) p = Some ((a, st), p, []).
Proof. intros H. unfold deref. by rewrite H. Qed.

Lemma deref_inv (p p' : ObjectPool) s a st l :
  deref s p = Some ((a, st), p', l) →
  s = Some a ∧ heap p !! a = Some st ∧ p' = p ∧ l = [].
Proof.
  unfold deref. destruct s as [b|]; [|done].
  destruct (heap p !! b) eqn:E; [|done]. intros [= -> -> -> <-]. done.
Qed.

Lemma store_next_Some (p : ObjectPool) a st n :
  heap p !! a = Some st →
  store_next (Some a) n p
  = Some (tt, set_heap (<[a := mkStorage (data st) n (generation st)]> (heap p)) p, []).
Proof.
  intros H. unfold store_next, write_storage, deref. munfold. by rewrite H.
Qed.

Lemma Storage_destroy_data_Some (p : ObjectPool) a st :
  heap p !! a = Some st →
  Storage_destroy_data (Some a) p
  = Some (tt, set_heap (<[a := retired_cell st (next st)]> (heap p)) p,
          destroy_data_log a).
Proof.
  intros H. unfold Storage_destroy_data, fetch_add_generation, write_storage.
  unfold deref. munfold. rewrite H. simpl.
  rewrite list_lookup_insert_eq by (by eapply lookup_lt_Some).
  simpl. by rewrite list_insert_insert_eq.
Qed.

Lemma release_storage_loop_Some (p : ObjectPool) fuel a st :
  heap p !! a = Some st →
  release_storage_loop (S fuel) (Some a) p
  = Some (tt, set_head (Some a)
                (set_heap (<[a := mkStorage (data st) (head_ p) (generation st)]> (heap p)) p),
          release_storage_log).
Proof.
  intros H. simpl. unfold load_head, cas_head. munfold.
  rewrite (store_next_Some _ _ _ _ H). simpl.
  by rewrite decide_True.
Qed.

(** One round is all a retry loop takes: more fuel changes nothing. *)
Lemma release_storage_loop_fuel (p : ObjectPool) fuel a st :
  heap p !! a = Some st →
  release_storage_loop (S fuel) (Some a) p = release_storage (Some a) p.
Proof.
  intros H. unfold release_storage, retry_fuel.
  by rewrite !(release_storage_loop_Some _ _ _ _ H).
Qed.

Lemma release_Some (p : ObjectPool) h a st :
  storage_ h = Some a → heap p !! a = Some st →
  release h p
  = Some (mkOwnerPtr None (parent_ h),
          set_head (Some a) (set_heap (<[a := retired_cell st (head_ p)]> (heap p)) p),
          destroy_data_log a ++ release_storage_log).
Proof.
  intros Hs H. unfold release, OwnerPtr_release. rewrite Hs. munfold.
  rewrite (Storage_destroy_data_Some _ _ _ H). simpl.
  unfold release_storage, retry_fuel.
  erewrite release_storage_loop_Some; last first.
  { simpl. apply list_lookup_insert_eq. by eapply lookup_lt_Some. }
  simpl. by rewrite list_insert_insert_eq.
Qed.

Lemma release_None (p : ObjectPool) h :
  storage_ h = None → release h p = None.
Proof. intros Hs. unfold release, OwnerPtr_release. by rewrite Hs. Qed.

Lemma release_dangling (p : ObjectPool) h a :
  storage_ h = Some a → heap p !! a = None → release h p = None.
Proof.
  intros Hs H. unfold release, OwnerPtr_release, Storage_destroy_data,
    fetch_add_generation. rewrite Hs. munfold. unfold deref. by rewrite H.
Qed.

Lemma get_storage_loop_pop (p : ObjectPool) fuel a st :
  head_ p = Some a → heap p !! a = Some st →
  get_storage_loop (S fuel) p
  = Some (a, set_head (next st) p,
          [ev_load var_head memory_order_acquire;
           ev_cas var_head true memory_order_release memory_order_relaxed]).
Proof.
  intros Hh H. simpl. unfold load_head, cas_head, deref. munfold.
  rewrite Hh. simpl. rewrite H. simpl. rewrite Hh. by rewrite decide_True.
Qed.

Lemma get_storage_pop (p : ObjectPool) a st :
  head_ p = Some a → heap p !! a = Some st →
  get_storage p = Some (a, set_head (next st) p, pop_log).
Proof.
  intros Hh H. unfold get_storage, retry_fuel.
  unfold mbind at 1. unfold M_bind, load_head. munfold. rewrite Hh.
  unfold deref, cas_head. munfold. rewrite Hh, H. simpl.
  by rewrite decide_True.
Qed.

Lemma get_storage_dangling (p : ObjectPool) a :
  head_ p = Some a → heap p !! a = None → get_storage p = None.
Proof.
  intros Hh H. unfold get_storage, load_head, retry_fuel. munfold.
  rewrite Hh. simpl. unfold load_head, deref. munfold. rewrite Hh. by rewrite H.
Qed.

(** *** The chunk allocator *)

Lemma store_next_app (p : ObjectPool) H C i n :
  heap p = H ++ C → (i < length C)%nat →
  store_next (Some (length H + i)%nat) n p
  = Some (tt, set_heap (H ++ alter (with_next n) i C) p, []).
Proof.
  intros Hp Hi. destruct (lookup_lt_is_Some_2 C i Hi) as [st Hst].
  rewrite (store_next_Some _ _ st).
  - rewrite Hp. rewrite insert_app_r. do 3 f_equal. f_equal. f_equal.
    apply list_eq. intros j. destruct (decide (i = j)) as [<-|Hne].
    + rewrite list_lookup_insert_eq by done.
      by rewrite list_lookup_alter_eq, Hst.
    + by rewrite list_lookup_insert_ne, list_lookup_alter_ne.
  - rewrite Hp. by rewrite lookup_app_r, Nat.add_comm, Nat.add_sub by lia.
Qed.

Lemma link_cells_length chunk count : ∀ i C,
  length (link_cells chunk i count C) = length C.
Proof.
  induction count as [|c IH]; intros i C; simpl; [done|].
  by rewrite IH, length_alter.
Qed.

Lemma link_chunk_app count : ∀ (p : ObjectPool) H C i,
  heap p = H ++ C → (i + count ≤ length C)%nat →
  link_chunk (length H) i count p
  = Some (tt, set_heap (H ++ link_cells (length H) i count C) p, []).
Proof.
  induction count as [|c IH]; intros p H C i Hp Hi; simpl.
  - munfold. rewrite <- Hp. by destruct p.
  - munfold. rewrite (store_next_app p H C i _ Hp) by lia.
    rewrite (IH _ H (alter (with_next (Some (length H + (i + 1))%nat)) i C)).
    + done.
    + done.
    + rewrite length_alter. lia.
Qed.

Lemma publish_chunk_loop_app (p : ObjectPool) fuel H C :
  heap p = H ++ C → length C = CHUNK_SIZE →
  publish_chunk_loop (S fuel) (length H) p
  = Some (tt, set_head (Some (length H + 1)%nat)
                (set_heap (H ++ alter (with_next (head_ p)) (CHUNK_SIZE - 2) C) p),
          [ev_load var_head memory_order_relaxed;
           ev_cas var_head true memory_order_release memory_order_relaxed]).
Proof.
  intros Hp HC. cbn [publish_chunk_loop].
  rewrite (mbind_Some _ _ p (head_ p) p [ev_load var_head memory_order_relaxed]) by done.
  rewrite (mbind_Some _ _ _ _ _ _ (store_next_app p H C (CHUNK_SIZE - 2) (head_ p) Hp
                ltac:(rewrite HC; unfold CHUNK_SIZE; lia))).
  unfold cas_head. munfold. by rewrite decide_True.
Qed.

Lemma track_chunk_loop_app (p : ObjectPool) fuel H C :
  heap p = H ++ C → length C = CHUNK_SIZE →
  track_chunk_loop (S fuel) (length H + (CHUNK_SIZE - 1)) p
  = Some (tt, set_chunk_list (Some (length H + (CHUNK_SIZE - 1))%nat)
                (set_heap (H ++ alter (with_next (chunk_list_ p)) (CHUNK_SIZE - 1) C) p),
          [ev_load var_chunk_list memory_order_relaxed;
           ev_cas var_chunk_list true memory_order_release memory_order_relaxed]).
Proof.
  intros Hp HC. cbn [track_chunk_loop].
  rewrite (mbind_Some _ _ p (chunk_list_ p) p [ev_load var_chunk_list memory_order_relaxed])
    by done.
  rewrite (mbind_Some _ _ _ _ _ _ (store_next_app p H C (CHUNK_SIZE - 1) (chunk_list_ p) Hp
                ltac:(rewrite HC; unfold CHUNK_SIZE; lia))).
  unfold cas_chunk_list. munfold. by rewrite decide_True.
Qed.

Lemma allocate_chunk_spec (p : ObjectPool) :
  allocate_chunk p
  = Some (length (heap p), allocate_chunk_pool p, allocate_chunk_log (length (heap p))).
Proof.
  unfold allocate_chunk.
  set (C0 := replicate CHUNK_SIZE Storage_default).
  set (p1 := set_heap (heap p ++ C0) p).
  rewrite (mbind_Some _ _ p (length (heap p)) p1 [ev_new_chunk (length (heap p))]) by done.
  set (p2 := set_storage_count (int32_wrap (storage_count_ p + Z.of_nat CHUNK_SIZE)%Z) p1).
  rewrite (mbind_Some _ _ p1 (storage_count_ p) p2
             [ev_fetch_add var_storage_count (Z.of_nat CHUNK_SIZE) memory_order_relaxed])
    by done.
  rewrite (mbind_Some _ _ _ _ _ _
             (link_chunk_app (CHUNK_SIZE - 2) p2 (heap p) C0 1 eq_refl ltac:(unfold C0, CHUNK_SIZE; rewrite length_replicate; lia))).
  set (C1 := link_cells _ _ _ _).
  assert (HC1 : length C1 = CHUNK_SIZE) by (unfold C1; by rewrite link_cells_length).
  set (p3 := set_heap (heap p ++ C1) p2).
  rewrite (mbind_Some _ _ _ _ _ _
             (store_next_app p3 (heap p) C1 (CHUNK_SIZE - 2) None eq_refl
                ltac:(rewrite HC1; unfold CHUNK_SIZE; lia))).
  set (C2 := alter _ _ C1).
  assert (HC2 : length C2 = CHUNK_SIZE) by (unfold C2; by rewrite length_alter).
  set (p4 := set_heap (heap p ++ C2) p3).
  rewrite decide_True by (unfold CHUNK_SIZE; lia).
  unfold retry_fuel.
  rewrite (mbind_Some _ _ _ _ _ _ (publish_chunk_loop_app p4 0 (heap p) C2 eq_refl HC2)).
  set (C3 := alter _ _ C2).
  assert (HC3 : length C3 = CHUNK_SIZE) by (unfold C3; by rewrite length_alter).
  set (p5 := set_head _ _).
  rewrite (mbind_Some _ _ _ _ _ _ (track_chunk_loop_app p5 0 (heap p) C3 eq_refl HC3)).
  unfold allocate_chunk_pool, allocate_chunk_log. cbn. do 3 f_equal.
Qed.

Lemma get_storage_empty (p : ObjectPool) :
  head_ p = None →
  get_storage p
  = Some (length (heap p), allocate_chunk_pool p,
          ev_load var_head memory_order_acquire :: allocate_chunk_log (length (heap p))).
Proof.
  intros Hh. unfold get_storage.
  rewrite (mbind_Some _ _ p None p [ev_load var_head memory_order_acquire]).
  - by rewrite allocate_chunk_spec.
  - unfold load_head. munfold. by rewrite Hh.
Qed.

(** ** Operations that never look at [check_empty_flag_] *)

Lemma flag_blind_ret {A} (a : A) : flag_blind (mret a).
Proof. done. Qed.

Lemma flag_blind_bind {A B} (m : M A) (k : A → M B) :
  flag_blind m → (∀ a, flag_blind (k a)) → flag_blind (m ≫= k).
Proof.
  intros Hm Hk b p. unfold mbind, M_bind. rewrite Hm.
  destruct (m p) as [[[a p1] l1]|]; simpl; [|done].
  rewrite Hk. by destruct (k a p1) as [[[c p2] l2]|].
Qed.

Lemma flag_blind_fail {A} : flag_blind (@fail A).
Proof. done. Qed.

Lemma flag_blind_emit e : flag_blind (emit e).
Proof. done. Qed.

Lemma flag_blind_deref s : flag_blind (deref s).
Proof.
  intros b p. unfold deref. destruct s as [a|]; [|done]. simpl.
  by destruct (heap p !! a).
Qed.

Lemma flag_blind_write_storage a st : flag_blind (write_storage a st).
Proof. done. Qed.

Lemma flag_blind_load_head mo : flag_blind (load_head mo).
Proof. done. Qed.

Lemma flag_blind_load_chunk_list mo : flag_blind (load_chunk_list mo).
Proof. done. Qed.

Lemma flag_blind_cas_head e d s f : flag_blind (cas_head e d s f).
Proof.
  intros b p. unfold cas_head. munfold. by destruct (decide (head_ p = e)).
Qed.

Lemma flag_blind_cas_chunk_list e d s f : flag_blind (cas_chunk_list e d s f).
Proof.
  intros b p. unfold cas_chunk_list. munfold.
  by destruct (decide (chunk_list_ p = e)).
Qed.

Lemma flag_blind_fetch_add_storage_count d mo :
  flag_blind (fetch_add_storage_count d mo).
Proof. done. Qed.

Lemma flag_blind_new_chunk : flag_blind new_chunk.
Proof. done. Qed.

Create HintDb flag_blind.
#[local] Hint Resolve flag_blind_ret flag_blind_fail flag_blind_emit
  flag_blind_deref flag_blind_write_storage flag_blind_load_head
  flag_blind_load_chunk_list flag_blind_cas_head flag_blind_cas_chunk_list
  flag_blind_fetch_add_storage_count flag_blind_new_chunk : flag_blind.

Ltac flag_blind_step :=
  first
    [ solve [auto with flag_blind]
    | match goal with |- flag_blind (mbind _ _) => apply flag_blind_bind; [|intros ?] end
    | match goal with |- flag_blind (match ?x with _ => _ end) => destruct x end ].

Ltac flag_blind_solve := repeat flag_blind_step.

Lemma flag_blind_store_next s n : flag_blind (store_next s n).
Proof. unfold store_next. flag_blind_solve. Qed.

Lemma flag_blind_fetch_add_generation s d mo :
  flag_blind (fetch_add_generation s d mo).
Proof. unfold fetch_add_generation. flag_blind_solve. Qed.

Lemma flag_blind_load_generation s mo : flag_blind (load_generation s mo).
Proof. unfold load_generation. flag_blind_solve. Qed.

#[local] Hint Resolve flag_blind_store_next flag_blind_fetch_add_generation
  flag_blind_load_generation : flag_blind.

Lemma flag_blind_init_data s d : flag_blind (Storage_init_data s d).
Proof. unfold Storage_init_data. flag_blind_solve. Qed.

Lemma flag_blind_destroy_data s : flag_blind (Storage_destroy_data s).
Proof. unfold Storage_destroy_data. flag_blind_solve. Qed.

Lemma flag_blind_release_storage_loop fuel s :
  flag_blind (release_storage_loop fuel s).
Proof. induction fuel; cbn -[load_head cas_head store_next allocate_chunk deref]; flag_blind_solve. Qed.

Lemma flag_blind_link_chunk count : ∀ chunk i, flag_blind (link_chunk chunk i count).
Proof. induction count; intros; cbn -[store_next]; flag_blind_solve. Qed.

Lemma flag_blind_publish_chunk_loop fuel chunk :
  flag_blind (publish_chunk_loop fuel chunk).
Proof. induction fuel; cbn -[load_head cas_head store_next allocate_chunk deref]; flag_blind_solve. Qed.

Lemma flag_blind_track_chunk_loop fuel node :
  flag_blind (track_chunk_loop fuel node).
Proof. induction fuel; cbn -[load_head cas_head store_next allocate_chunk deref]; flag_blind_solve. Qed.

#[local] Hint Resolve flag_blind_init_data flag_blind_destroy_data
  flag_blind_release_storage_loop flag_blind_link_chunk
  flag_blind_publish_chunk_loop flag_blind_track_chunk_loop : flag_blind.

Lemma flag_blind_allocate_chunk : flag_blind allocate_chunk.
Proof. unfold allocate_chunk. flag_blind_solve. Qed.

#[local] Hint Resolve flag_blind_allocate_chunk : flag_blind.

Lemma flag_blind_get_storage_loop fuel : flag_blind (get_storage_loop fuel).
Proof. induction fuel; cbn -[load_head cas_head store_next allocate_chunk deref]; flag_blind_solve. Qed.

#[local] Hint Resolve flag_blind_get_storage_loop : flag_blind.

Lemma flag_blind_get_storage : flag_blind get_storage.
Proof. unfold get_storage. flag_blind_solve. Qed.

Lemma flag_blind_release_storage s : flag_blind (release_storage s).
Proof. unfold release_storage. auto with flag_blind. Qed.

#[local] Hint Resolve flag_blind_get_storage flag_blind_release_storage : flag_blind.

Lemma flag_blind_create d : flag_blind (create d).
Proof. unfold create. flag_blind_solve. Qed.

Lemma flag_blind_create_empty : flag_blind create_empty.
Proof. unfold create_empty. flag_blind_solve. Qed.

Lemma flag_blind_release h : flag_blind (release h).
Proof. unfold release, OwnerPtr_release. flag_blind_solve. Qed.

Lemma flag_blind_destroy_loop fuel : ∀ node, flag_blind (destroy_loop fuel node).
Proof.
  induction fuel; intros [n|]; cbn -[deref]; flag_blind_solve.
Qed.

Lemma flag_blind_ObjectPool_destroy : flag_blind ObjectPool_destroy.
Proof.
  unfold ObjectPool_destroy. apply flag_blind_bind; [auto with flag_blind|].
  intros node b p. munfold. rewrite flag_blind_destroy_loop.
  by destruct (destroy_loop _ _ p) as [[[u q] l]|].
Qed.

(** ** Inversion of the pool operations *)

Lemma get_storage_inv (p p' : ObjectPool) r l :
  get_storage p = Some (r, p', l) →
  (head_ p = None ∧ r = length (heap p) ∧ p' = allocate_chunk_pool p
   ∧ l = ev_load var_head memory_order_acquire :: allocate_chunk_log r)
  ∨ (∃ st, head_ p = Some r ∧ heap p !! r = Some st
           ∧ p' = set_head (next st) p ∧ l = pop_log).
Proof.
  destruct (head_ p) as [a|] eqn:Hh.
  - destruct (heap p !! a) as [st|] eqn:Ha.
    + rewrite (get_storage_pop _ _ _ Hh Ha). intros [= <- <- <-]. right. eauto.
    + by rewrite (get_storage_dangling _ _ Hh Ha).
  - rewrite (get_storage_empty _ Hh). intros [= <- <- <-]. by left.
Qed.

Lemma Storage_init_data_Some (p : ObjectPool) a st d :
  heap p !! a = Some st →
  Storage_init_data (Some a) d p
  = Some (tt, set_heap (<[a := mkStorage d (next st) (generation st)]> (heap p)) p,
          [ev_init_data a]).
Proof.
  intros H. unfold Storage_init_data, write_storage, deref. munfold. by rewrite H.
Qed.

Lemma get_storage_allocated (p p' : ObjectPool) r l :
  get_storage p = Some (r, p', l) → is_Some (heap p' !! r).
Proof.
  intros [(Hh & -> & -> & _)|(st & Hh & Ha & -> & _)]%get_storage_inv.
  - apply lookup_lt_is_Some. unfold allocate_chunk_pool. simpl.
    rewrite length_app. simpl. lia.
  - simpl. eauto.
Qed.

Lemma create_inv (p p' : ObjectPool) d h l :
  create d p = Some (h, p', l) →
  ∃ r q lq st,
    get_storage p = Some (r, q, lq) ∧ heap q !! r = Some st
    ∧ h = mkOwnerPtr (Some r) (Some this)
    ∧ p' = set_heap (<[r := mkStorage d (next st) (generation st)]> (heap q)) q
    ∧ l = lq ++ [ev_init_data r].
Proof.
  unfold create. destruct (get_storage p) as [[[r q] lq]|] eqn:Hg.
  - rewrite (mbind_Some _ _ _ _ _ _ Hg).
    destruct (get_storage_allocated _ _ _ _ Hg) as [st Hst].
    rewrite (mbind_Some _ _ _ _ _ _ (Storage_init_data_Some q r st d Hst)).
    munfold. intros [= <- <- <-]. by exists r, q, lq, st.
  - by rewrite (mbind_None _ _ _ Hg).
Qed.

Lemma create_empty_inv (p p' : ObjectPool) h l :
  create_empty p = Some (h, p', l) →
  ∃ r, get_storage p = Some (r, p', l) ∧ h = mkOwnerPtr (Some r) (Some this).
Proof.
  unfold create_empty. destruct (get_storage p) as [[[r q] lq]|] eqn:Hg.
  - rewrite (mbind_Some _ _ _ _ _ _ Hg). munfold. rewrite ?app_nil_r.
    intros [= <- <- <-]. eauto.
  - by rewrite (mbind_None _ _ _ Hg).
Qed.

Lemma release_inv (p p' : ObjectPool) h h' l :
  release h p = Some (h', p', l) →
  ∃ a st,
    storage_ h = Some a ∧ heap p !! a = Some st
    ∧ h' = mkOwnerPtr None (parent_ h)
    ∧ p' = set_head (Some a) (set_heap (<[a := retired_cell st (head_ p)]> (heap p)) p)
    ∧ l = destroy_data_log a ++ release_storage_log.
Proof.
  destruct (storage_ h) as [a|] eqn:Hs.
  - destruct (heap p !! a) as [st|] eqn:Ha.
    + rewrite (release_Some _ _ _ _ Hs Ha). intros [= <- <- <-]. eauto 10.
    + by rewrite (release_dangling _ _ _ Hs Ha).
  - by rewrite (release_None _ _ Hs).
Qed.

Lemma OwnerPtr_reset_empty (p : ObjectPool) h :
  storage_ h = None → OwnerPtr_reset h p = Some (h, p, []).
Proof. intros Hs. unfold OwnerPtr_reset. by rewrite Hs. Qed.

Lemma OwnerPtr_reset_inv (p p' : ObjectPool) h h' l :
  OwnerPtr_reset h p = Some (h', p', l) →
  (storage_ h = None ∧ h' = h ∧ p' = p ∧ l = [])
  ∨ (∃ a st,
       storage_ h = Some a ∧ heap p !! a = Some st
       ∧ h' = mkOwnerPtr None (parent_ h)
       ∧ p' = set_head (Some a) (set_heap (<[a := retired_cell st (head_ p)]> (heap p)) p)
       ∧ l = destroy_data_log a ++ release_storage_log).
Proof.
  unfold OwnerPtr_reset. destruct (storage_ h) as [a|] eqn:Hs.
  - destruct (parent_ h) as [q|] eqn:Hp; [|done].
    destruct (release (mkOwnerPtr (Some a) (Some q)) p) as [[[h1 p1] l1]|] eqn:Hr.
    + rewrite (mbind_Some _ _ _ _ _ _ Hr). munfold. rewrite ?app_nil_r.
      intros [= <- <- <-]. right.
      apply release_inv in Hr as (a' & st & [= <-] & Ha & _ & -> & ->).
      by exists a, st.
    + by rewrite (mbind_None _ _ _ Hr).
  - intros [= <- <- <-]. by left.
Qed.

Lemma flag_blind_OwnerPtr_reset h : flag_blind (OwnerPtr_reset h).
Proof.
  unfold OwnerPtr_reset. destruct (storage_ h); [|done].
  destruct (parent_ h); [|done].
  apply flag_blind_bind; [apply flag_blind_release|done].
Qed.

(** ** Order of events in a log *)

Lemma index_of_here e l : index_of e (e :: l) = Some O.
Proof. simpl. by rewrite decide_True. Qed.

Lemma index_of_later e x l :
  x ≠ e → index_of e (x :: l) = S <$> index_of e l.
Proof. intros H. simpl. by rewrite decide_False. Qed.

Ltac index_of_eval :=
  repeat first [rewrite index_of_here | rewrite index_of_later by done];
  cbn [fmap option_fmap option_map].

(** ** The claims about single operations *)

(** C1 (amended).  [release] of a non-empty handle first increments the
    slot's generation (relaxed), then issues the release fence, then runs
    the payload's [clear()], and only then pushes the slot on the free
    list: the log holds exactly these events in this order, the cell ends
    up cleared with its generation incremented, and the slot is the new
    head of the free list. *)
Theorem release_order (p : ObjectPool) (h : OwnerPtr) (a : nat) (st : Storage) :
  storage_ h = Some a → heap p !! a = Some st →
  ∃ p' l,
    release h p = Some (mkOwnerPtr None (parent_ h), p', l)
    ∧ l = [ev_fetch_add (var_generation a) 1 memory_order_relaxed;
           ev_fence memory_order_release;
           ev_clear_data a;
           ev_load var_head memory_order_relaxed;
           ev_cas var_head true memory_order_release memory_order_relaxed]
    ∧ occurs_before (ev_fetch_add (var_generation a) 1 memory_order_relaxed)
                    (ev_fence memory_order_release) l
    ∧ occurs_before (ev_fence memory_order_release) (ev_clear_data a) l
    ∧ occurs_before (ev_clear_data a)
                    (ev_cas var_head true memory_order_release memory_order_relaxed) l
    ∧ heap p' !! a = Some (retired_cell st (head_ p))
    ∧ head_ p' = Some a.
Proof.
  intros Hs Ha. rewrite (release_Some _ _ _ _ Hs Ha).
  unfold destroy_data_log, release_storage_log. cbn [app].
  eexists _, _. split; [reflexivity|]. split; [reflexivity|].
  split; [|split; [|split; [|split]]].
  - exists 0%nat, 1%nat. index_of_eval. repeat split; lia.
  - exists 1%nat, 2%nat. index_of_eval. repeat split; lia.
  - exists 2%nat, 4%nat. index_of_eval. repeat split; lia.
  - simpl. apply list_lookup_insert_eq. by eapply lookup_lt_Some.
  - done.
Qed.

(** C2.  [is_alive] of an empty handle is false; of a handle on slot [a]
    it is true exactly when the stamp equals the slot's generation.  The
    pool is left untouched either way. *)
Theorem is_alive_spec (w : WeakPtr) (p : ObjectPool) :
  (weak_storage_ w = None → is_alive w p = Some (false, p, []))
  ∧ (∀ a st, weak_storage_ w = Some a → heap p !! a = Some st →
       ∃ b l, is_alive w p = Some (b, p, l)
              ∧ (b = true ↔ weak_generation_ w = generation st)).
Proof.
  split.
  - intros Hw. unfold is_alive. by rewrite Hw.
  - intros a st Hw Ha. unfold is_alive, load_generation, deref.
    rewrite Hw. munfold. rewrite Ha. simpl.
    eexists _, _. split; [reflexivity|]. apply bool_decide_eq_true.
Qed.

(** C5 (amended).  On an empty handle [reset()] and the destructor do
    nothing: the handle and the pool are unchanged and nothing is logged.
    [ObjectPool::release] has no such guard: given an empty handle it
    dereferences the null slot reference and has no defined result. *)
Theorem retire_empty_handle (p : ObjectPool) (h : OwnerPtr) :
  storage_ h = None →
  OwnerPtr_reset h p = Some (h, p, [])
  ∧ OwnerPtr_destroy h p = Some (h, p, [])
  ∧ release h p = None.
Proof.
  intros Hs. unfold OwnerPtr_destroy.
  rewrite (OwnerPtr_reset_empty _ _ Hs), (release_None _ _ Hs). done.
Qed.

(** C8.  [set_check_empty] stores the flag and touches nothing else, and
    no operation reads it: run from two pools that differ only in the
    flag, [create], [create_empty], [release], [reset] and the pool's
    destructor give the same result and the same log, and leave pools
    that again differ only in the flag. *)
Theorem set_check_empty_frame :
  (∀ flag (p : ObjectPool),
     ∃ p', set_check_empty flag p = Some (tt, p', [])
           ∧ check_empty_flag_ p' = flag
           ∧ storage_count_ p' = storage_count_ p ∧ head_ p' = head_ p
           ∧ chunk_list_ p' = chunk_list_ p ∧ heap p' = heap p)
  ∧ (∀ d b p, create d (set_flag b p) = lift_flag b (create d p))
  ∧ (∀ b p, create_empty (set_flag b p) = lift_flag b (create_empty p))
  ∧ (∀ h b p, release h (set_flag b p) = lift_flag b (release h p))
  ∧ (∀ h b p, OwnerPtr_reset h (set_flag b p) = lift_flag b (OwnerPtr_reset h p))
  ∧ (∀ b p, ObjectPool_destroy (set_flag b p) = lift_flag b (ObjectPool_destroy p)).
Proof.
  split; [|split; [|split; [|split; [|split]]]].
  - intros flag p. by eexists.
  - intros d. apply flag_blind_create.
  - apply flag_blind_create_empty.
  - intros h. apply flag_blind_release.
  - intros h. apply flag_blind_OwnerPtr_reset.
  - apply flag_blind_ObjectPool_destroy.
Qed.

(** ** Generations along an execution *)

Ltac euclid z :=
  pose proof (Z.mod_pos_bound z 4294967296 eq_refl);
  pose proof (Z.div_mod z 4294967296 ltac:(discriminate)).

Lemma int32_wrap_range z : (INT32_MIN ≤ int32_wrap z ≤ INT32_MAX)%Z.
Proof.
  unfold int32_wrap, INT32_MIN, INT32_MAX. euclid (z + 2147483648)%Z. lia.
Qed.

Lemma int32_wrap_id z : (INT32_MIN ≤ z ≤ INT32_MAX)%Z → int32_wrap z = z.
Proof.
  unfold int32_wrap, INT32_MIN, INT32_MAX. intros H.
  rewrite Z.mod_small; lia.
Qed.

Lemma int32_wrap_add_l x y : int32_wrap (int32_wrap x + y) = int32_wrap (x + y).
Proof.
  unfold int32_wrap. f_equal.
  replace ((x + 2147483648) mod 4294967296 - 2147483648 + y + 2147483648)%Z
    with ((x + 2147483648) mod 4294967296 + y)%Z by lia.
  rewrite Z.add_mod_idemp_l by discriminate. f_equal. lia.
Qed.

Lemma int32_wrap_fixed g n :
  (INT32_MIN ≤ g ≤ INT32_MAX)%Z → (0 < n < 4294967296)%Z → int32_wrap (g + n) ≠ g.
Proof.
  unfold int32_wrap, INT32_MIN, INT32_MAX. intros Hg Hn.
  euclid (g + n + 2147483648)%Z. lia.
Qed.

Lemma bump_S n g : bump (S n) g = int32_wrap (bump n g + 1).
Proof. done. Qed.

Lemma bump_add n m g : bump (n + m) g = bump m (bump n g).
Proof.
  unfold bump. rewrite Nat.add_comm. apply Nat.iter_add.
Qed.

Lemma bump_wrap n g : bump n (int32_wrap g) = int32_wrap (g + Z.of_nat n).
Proof.
  induction n as [|n IH].
  - simpl. by rewrite Z.add_0_r.
  - rewrite bump_S, IH, int32_wrap_add_l. f_equal. lia.
Qed.

Lemma bump_pos n g : (0 < n)%nat → bump n g = int32_wrap (g + Z.of_nat n).
Proof.
  destruct n as [|n]; [lia|]. intros _. clear.
  induction n as [|n IH].
  - done.
  - rewrite bump_S, IH, int32_wrap_add_l. f_equal. lia.
Qed.

Lemma retirements_app a l1 l2 :
  retirements a (l1 ++ l2) = (retirements a l1 + retirements a l2)%nat.
Proof. unfold retirements. by rewrite filter_app, length_app. Qed.

Lemma retirements_nil a : retirements a [] = 0%nat.
Proof. done. Qed.

Lemma retirements_cons_ne a e l :
  e ≠ retire_event a → retirements a (e :: l) = retirements a l.
Proof. intros H. unfold retirements. by rewrite filter_cons_False. Qed.

Lemma retirements_cons_eq a l :
  retirements a (retire_event a :: l) = S (retirements a l).
Proof. unfold retirements. by rewrite filter_cons_True. Qed.

Lemma retirements_release a b :
  retirements a (destroy_data_log b ++ release_storage_log)
  = if decide (b = a) then 1%nat else 0%nat.
Proof.
  unfold destroy_data_log, release_storage_log. cbn [app].
  destruct (decide (b = a)) as [->|Hne].
  - change (ev_fetch_add (var_generation a) 1 memory_order_relaxed) with (retire_event a).
    rewrite retirements_cons_eq. by rewrite !retirements_cons_ne.
  - rewrite !retirements_cons_ne; [done|done..|].
    unfold retire_event. congruence.
Qed.

Lemma retirements_get_storage (p p' : ObjectPool) r l a :
  get_storage p = Some (r, p', l) → retirements a l = 0%nat.
Proof.
  intros [(_ & _ & _ & ->)|(st & _ & _ & _ & ->)]%get_storage_inv.
  - unfold allocate_chunk_log. by rewrite !retirements_cons_ne.
  - unfold pop_log. by rewrite !retirements_cons_ne.
Qed.

Lemma chunk_cells_generation chunk h c i st :
  chunk_cells chunk h c !! i = Some st → generation st = 1%Z.
Proof.
  unfold chunk_cells. intros H.
  apply list_elem_of_lookup_2 in H.
  rewrite elem_of_cons, elem_of_app, list_elem_of_fmap, !elem_of_cons, elem_of_nil in H.
  destruct H as [->|[(j & -> & _)|[->|[->|[]]]]]; done.
Qed.

Lemma gen_of_insert (p : ObjectPool) a b st :
  gen_of (set_heap (<[b := st]> (heap p)) p) a
  = if decide (b = a ∧ b < length (heap p))%nat then generation st else gen_of p a.
Proof.
  unfold gen_of. simpl. destruct (decide (b = a ∧ b < length (heap p))%nat) as [[-> Hlt]|Hn].
  - by rewrite list_lookup_insert_eq.
  - destruct (decide (b = a)) as [->|Hne].
    + rewrite list_insert_ge by lia. done.
    + by rewrite list_lookup_insert_ne.
Qed.

Lemma gen_of_get_storage (p p' : ObjectPool) r l a :
  get_storage p = Some (r, p', l) → gen_of p' a = gen_of p a.
Proof.
  intros [(_ & _ & -> & _)|(st & _ & _ & -> & _)]%get_storage_inv; [|done].
  unfold gen_of, allocate_chunk_pool. simpl.
  destruct (decide (a < length (heap p))%nat) as [Hlt|Hge].
  - by rewrite lookup_app_l.
  - rewrite lookup_app_r by lia. rewrite (lookup_ge_None_2 (heap p)) by lia.
    destruct (chunk_cells _ _ _ !! _) as [st|] eqn:E; [|done].
    simpl. by eapply chunk_cells_generation.
Qed.

Lemma gen_of_rewrite (p : ObjectPool) a b st st' :
  heap p !! b = Some st → generation st' = generation st →
  gen_of (set_heap (<[b := st']> (heap p)) p) a = gen_of p a.
Proof.
  intros Hb Hg. rewrite gen_of_insert. case_decide as Hd; [|done].
  destruct Hd as [-> _]. unfold gen_of. by rewrite Hb.
Qed.

Lemma gen_of_retire (p : ObjectPool) a b st n :
  heap p !! b = Some st →
  gen_of (set_head (Some b) (set_heap (<[b := retired_cell st n]> (heap p)) p)) a
  = if decide (b = a) then int32_wrap (gen_of p a + 1) else gen_of p a.
Proof.
  intros Hb. change (gen_of (set_head ?x ?q) a) with (gen_of q a).
  rewrite gen_of_insert. pose proof (lookup_lt_Some _ _ _ Hb) as Hlt.
  destruct (decide (b = a)) as [->|Hne].
  - rewrite decide_True by done. unfold gen_of. by rewrite Hb.
  - rewrite decide_False by tauto. done.
Qed.

Lemma OwnerPtr_get_inv (p p' : ObjectPool) h x l :
  OwnerPtr_get h p = Some (x, p', l) → p' = p ∧ l = [].
Proof.
  unfold OwnerPtr_get, deref. munfold. destruct (storage_ h) as [a|]; [|done].
  destruct (heap p !! a); [|done]. by intros [= _ <- <-].
Qed.

Lemma OwnerPtr_set_inv (p p' : ObjectPool) h d l :
  OwnerPtr_set h d p = Some (tt, p', l) →
  ∃ a st, storage_ h = Some a ∧ heap p !! a = Some st
          ∧ p' = set_heap (<[a := mkStorage d (next st) (generation st)]> (heap p)) p
          ∧ l = [].
Proof.
  unfold OwnerPtr_set, write_storage, deref. munfold.
  destruct (storage_ h) as [a|]; [|done].
  destruct (heap p !! a) as [st|] eqn:E; [|done]. intros [= <- <-]. eauto 10.
Qed.

Lemma OwnerPtr_get_weak_inv (p p' : ObjectPool) h wk l :
  OwnerPtr_get_weak h p = Some (wk, p', l) →
  ∃ a st, storage_ h = Some a ∧ heap p !! a = Some st
          ∧ wk = mkWeakPtr (generation st) (Some a) ∧ p' = p
          ∧ l = [ev_load (var_generation a) memory_order_relaxed].
Proof.
  unfold OwnerPtr_get_weak, load_generation, deref. munfold.
  destruct (storage_ h) as [a|]; [|done].
  destruct (heap p !! a) as [st|] eqn:E; [|done]. simpl.
  intros [= <- <- <-]. eauto 10.
Qed.

(** One statement of the client: the generation of every slot is
    incremented once if the statement retires that slot and is left
    alone otherwise; the log counts the retirement. *)
Lemma exec_op_generation o w w' l a :
  exec_op o w = Some (w', l) →
  retirements a l = (if decide (retired_by o w = Some a) then 1%nat else 0%nat)
  ∧ gen_of (pool w') a
    = (if decide (retired_by o w = Some a) then int32_wrap (gen_of (pool w) a + 1)
       else gen_of (pool w) a).
Proof.
  destruct o as [d| |i|i|i|i j|i|i d|i|flag]; simpl; intros H.
  - destruct (create d (pool w)) as [[[h p] l1]|] eqn:E; simplify_eq/=.
    apply create_inv in E as (r & q & lq & st & Hg & Hr & -> & -> & ->).
    rewrite retirements_app, (retirements_get_storage _ _ _ _ a Hg).
    split; [done|].
    rewrite (gen_of_rewrite q a r st) by done. by eapply gen_of_get_storage.
  - destruct (create_empty (pool w)) as [[[h p] l1]|] eqn:E; simplify_eq/=.
    apply create_empty_inv in E as (r & Hg & ->).
    rewrite (retirements_get_storage _ _ _ _ a Hg). split; [done|].
    by eapply gen_of_get_storage.
  - destruct (handles w !! i) as [h|] eqn:Hi; simplify_eq/=.
    destruct (OwnerPtr_reset h (pool w)) as [[[h' p] l1]|] eqn:E; simplify_eq/=.
    apply OwnerPtr_reset_inv in E
      as [(Hs & -> & -> & ->)|(b & st & Hs & Hb & -> & -> & ->)]; rewrite Hs.
    + done.
    + rewrite retirements_release, (gen_of_retire _ a b st _ Hb).
      destruct (decide (b = a)) as [->|Hne].
      * by rewrite !decide_True.
      * rewrite !decide_False by congruence. done.
  - destruct (handles w !! i) as [h|] eqn:Hi; simplify_eq/=.
    destruct (release h (pool w)) as [[[h' p] l1]|] eqn:E; simplify_eq/=.
    apply release_inv in E as (b & st & Hs & Hb & -> & -> & ->). rewrite Hs.
    rewrite retirements_release, (gen_of_retire _ a b st _ Hb).
    destruct (decide (b = a)) as [->|Hne].
    + by rewrite !decide_True.
    + rewrite !decide_False by congruence. done.
  - destruct (handles w !! i) as [h|] eqn:Hi; simplify_eq/=. done.
  - destruct (handles w !! i) as [hi|] eqn:Hi; simplify_eq/=.
    destruct (handles w !! j) as [hj|] eqn:Hj; simplify_eq/=.
    destruct (decide (i = j)); simplify_eq/=; done.
  - destruct (handles w !! i) as [h|] eqn:Hi; simplify_eq/=.
    destruct (OwnerPtr_get h (pool w)) as [[[x p] l1]|] eqn:E; simplify_eq/=.
    by apply OwnerPtr_get_inv in E as [-> ->].
  - destruct (handles w !! i) as [h|] eqn:Hi; simplify_eq/=.
    destruct (OwnerPtr_set h d (pool w)) as [[[[] p] l1]|] eqn:E; simplify_eq/=.
    apply OwnerPtr_set_inv in E as (b & st & Hs & Hb & -> & ->).
    split; [done|]. by rewrite (gen_of_rewrite _ a b st).
  - destruct (handles w !! i) as [h|] eqn:Hi; simplify_eq/=.
    destruct (OwnerPtr_get_weak h (pool w)) as [[[x p] l1]|] eqn:E; simplify_eq/=.
    apply OwnerPtr_get_weak_inv in E as (b & st & Hs & Hb & -> & -> & ->).
    by rewrite retirements_cons_ne.
  - unfold set_check_empty, modify in H. by simplify_eq/=.
Qed.

Lemma run_generation ops : ∀ w w' l a,
  run ops w = Some (w', l) →
  gen_of (pool w') a = bump (retirements a l) (gen_of (pool w) a).
Proof.
  induction ops as [|o ops IH]; intros w w' l a; simpl.
  - by intros [= <- <-].
  - destruct (exec_op o w) as [[w1 l1]|] eqn:E1; simpl; [|done].
    destruct (run ops w1) as [[w2 l2]|] eqn:E2; simpl; [|done].
    intros [= <- <-].
    rewrite retirements_app, bump_add, (IH _ _ _ a E2).
    destruct (exec_op_generation _ _ _ _ a E1) as [-> ->].
    by case_decide.
Qed.

Lemma run_app ops1 ops2 w w1 w2 l1 l2 :
  run ops1 w = Some (w1, l1) → run ops2 w1 = Some (w2, l2) →
  run (ops1 ++ ops2) w = Some (w2, l1 ++ l2).
Proof.
  revert w l1. induction ops1 as [|o ops1 IH]; intros w l1; simpl.
  - by intros [= <- <-].
  - destruct (exec_op o w) as [[w' l']|]; simpl; [|done].
    destruct (run ops1 w') as [[w'' l'']|] eqn:E; simpl; [|done].
    intros [= <- <-] H2. rewrite (IH _ _ E H2). simpl.
    by rewrite app_assoc.
Qed.

(** Every slot of a pool grown from nothing carries [1] plus the number
    of its retirements, in 32-bit arithmetic. *)
Lemma reachable_generation ops w l a :
  run ops World_init = Some (w, l) →
  gen_of (pool w) a = int32_wrap (1 + Z.of_nat (retirements a l)).
Proof.
  intros H. rewrite (run_generation _ _ _ _ a H).
  change (gen_of (pool World_init) a) with (int32_wrap 1).
  apply bump_wrap.
Qed.

(** ** Create-then-retire rounds on the head of the free list *)

Lemma create_pop (p : ObjectPool) d a st :
  head_ p = Some a → heap p !! a = Some st →
  create d p
  = Some (mkOwnerPtr (Some a) (Some this),
          set_heap (<[a := mkStorage d (next st) (generation st)]> (heap p))
                   (set_head (next st) p),
          pop_log ++ [ev_init_data a]).
Proof.
  intros Hh Ha. unfold create.
  rewrite (mbind_Some _ _ _ _ _ _ (get_storage_pop _ _ _ Hh Ha)).
  by rewrite (mbind_Some _ _ _ _ _ _
                (Storage_init_data_Some (set_head (next st) p) a st d Ha)).
Qed.

Lemma OwnerPtr_reset_Some (p : ObjectPool) h a q st :
  storage_ h = Some a → parent_ h = Some q → heap p !! a = Some st →
  OwnerPtr_reset h p
  = Some (mkOwnerPtr None (Some q),
          set_head (Some a) (set_heap (<[a := retired_cell st (head_ p)]> (heap p)) p),
          destroy_data_log a ++ release_storage_log).
Proof.
  intros Hs Hq Ha. unfold OwnerPtr_reset. rewrite Hs, Hq.
  rewrite (mbind_Some _ _ _ _ _ _
             (release_Some p (mkOwnerPtr (Some a) (Some q)) a st eq_refl Ha)).
  munfold. by rewrite ?app_nil_r.
Qed.

Lemma churn_run d a n : ∀ w,
  head_ (pool w) = Some a → is_Some (heap (pool w) !! a) →
  ∃ w' l,
    run (churn d (length (handles w)) n) w = Some (w', l)
    ∧ head_ (pool w') = Some a
    ∧ is_Some (heap (pool w') !! a)
    ∧ retirements a l = n
    ∧ handles w' = handles w ++ replicate n (mkOwnerPtr None (Some this)).
Proof.
  induction n as [|n IH]; intros w Hh [st Ha].
  - exists w, []. simpl. by rewrite app_nil_r.
  - cbn [churn run exec_op].
    rewrite (create_pop _ d a st Hh Ha). cbn [mbind option_bind].
    set (p1 := set_heap _ _).
    set (h := mkOwnerPtr (Some a) (Some this)).
    assert (Ha1 : heap p1 !! a = Some (mkStorage d (next st) (generation st))).
    { apply list_lookup_insert_eq. by eapply lookup_lt_Some. }
    cbn [handles pool].
    rewrite lookup_app_r, Nat.sub_diag by done. cbn [lookup list_lookup mbind option_bind].
    rewrite (OwnerPtr_reset_Some p1 h a this _ eq_refl eq_refl Ha1).
    cbn [mbind option_bind].
    set (p2 := set_head _ _).
    set (w2 := mkWorld p2 _).
    assert (Hw2 : handles w2 = handles w ++ [mkOwnerPtr None (Some this)]).
    { unfold w2. cbn [handles].
      replace (length (handles w)) with (length (handles w) + 0)%nat by lia.
      by rewrite insert_app_r. }
    destruct (IH w2) as (w' & l & Hrun & Hh' & Ha' & Hret & Hhs).
    { done. }
    { unfold w2, p2. simpl. rewrite list_lookup_insert_eq; [eauto|].
      by eapply lookup_lt_Some. }
    rewrite Hw2, length_app, Nat.add_1_r in Hrun. rewrite Hrun.
    cbn [mbind option_bind].
    eexists _, _. split; [reflexivity|]. split; [done|]. split; [done|]. split.
    + rewrite (retirements_app a (pop_log ++ _)), (retirements_app a (destroy_data_log a ++ _)).
      rewrite Hret, retirements_release, decide_True by done.
      unfold pop_log. cbn [app]. by rewrite !retirements_cons_ne.
    + rewrite Hhs, Hw2, <- app_assoc. done.
Qed.

(** Slots are never given back: the arena only grows, and a statement can
    only retire a slot that is allocated. *)
Lemma get_storage_heap_length (p p' : ObjectPool) r l :
  get_storage p = Some (r, p', l) → (length (heap p) ≤ length (heap p'))%nat.
Proof.
  intros [(_ & _ & -> & _)|(st & _ & _ & -> & _)]%get_storage_inv; [|done].
  unfold allocate_chunk_pool. simpl. rewrite length_app. lia.
Qed.

Lemma exec_op_heap o w w' l :
  exec_op o w = Some (w', l) →
  (length (heap (pool w)) ≤ length (heap (pool w')))%nat
  ∧ ∀ a, retired_by o w = Some a → is_Some (heap (pool w) !! a).
Proof.
  destruct o as [d| |i|i|i|i j|i|i d|i|flag]; simpl; intros H.
  - destruct (create d (pool w)) as [[[h p] l1]|] eqn:E; simplify_eq/=.
    apply create_inv in E as (r & q & lq & st & Hg & Hr & -> & -> & ->).
    split; [|done]. simpl. rewrite length_insert.
    by eapply get_storage_heap_length.
  - destruct (create_empty (pool w)) as [[[h p] l1]|] eqn:E; simplify_eq/=.
    apply create_empty_inv in E as (r & Hg & ->).
    split; [|done]. by eapply get_storage_heap_length.
  - destruct (handles w !! i) as [h|] eqn:Hi; simplify_eq/=.
    destruct (OwnerPtr_reset h (pool w)) as [[[h' p] l1]|] eqn:E; simplify_eq/=.
    apply OwnerPtr_reset_inv in E
      as [(Hs & -> & -> & ->)|(b & st & Hs & Hb & -> & -> & ->)]; rewrite Hs.
    + done.
    + simpl. rewrite length_insert. split; [done|]. intros a [= <-]. eauto.
  - destruct (handles w !! i) as [h|] eqn:Hi; simplify_eq/=.
    destruct (release h (pool w)) as [[[h' p] l1]|] eqn:E; simplify_eq/=.
    apply release_inv in E as (b & st & Hs & Hb & -> & -> & ->). rewrite Hs.
    simpl. rewrite length_insert. split; [done|]. intros a [= <-]. eauto.
  - destruct (handles w !! i) as [h|] eqn:Hi; simplify_eq/=. done.
  - destruct (handles w !! i) as [hi|] eqn:Hi; simplify_eq/=.
    destruct (handles w !! j) as [hj|] eqn:Hj; simplify_eq/=.
    destruct (decide (i = j)); simplify_eq/=; done.
  - destruct (handles w !! i) as [h|] eqn:Hi; simplify_eq/=.
    destruct (OwnerPtr_get h (pool w)) as [[[x p] l1]|] eqn:E; simplify_eq/=.
    by apply OwnerPtr_get_inv in E as [-> ->].
  - destruct (handles w !! i) as [h|] eqn:Hi; simplify_eq/=.
    destruct (OwnerPtr_set h d (pool w)) as [[[[] p] l1]|] eqn:E; simplify_eq/=.
    apply OwnerPtr_set_inv in E as (b & st & Hs & Hb & -> & ->).
    simpl. by rewrite length_insert.
  - destruct (handles w !! i) as [h|] eqn:Hi; simplify_eq/=.
    destruct (OwnerPtr_get_weak h (pool w)) as [[[x p] l1]|] eqn:E; simplify_eq/=.
    by apply OwnerPtr_get_weak_inv in E as (b & st & Hs & Hb & -> & -> & ->).
  - unfold set_check_empty, modify in H. by simplify_eq/=.
Qed.

Lemma run_heap_length ops : ∀ w w' l,
  run ops w = Some (w', l) → (length (heap (pool w)) ≤ length (heap (pool w')))%nat.
Proof.
  induction ops as [|o ops IH]; intros w w' l; simpl.
  - by intros [= <- <-].
  - destruct (exec_op o w) as [[w1 l1]|] eqn:E1; simpl; [|done].
    destruct (run ops w1) as [[w2 l2]|] eqn:E2; simpl; [|done].
    intros [= <- <-]. apply exec_op_heap in E1 as [? _]. apply IH in E2. lia.
Qed.

Lemma gen_of_cell (p : ObjectPool) a st :
  heap p !! a = Some st → gen_of p a = generation st.
Proof. intros H. unfold gen_of. by rewrite H. Qed.

Lemma run_cell ops w w' l a st :
  run ops w = Some (w', l) → heap (pool w) !! a = Some st →
  ∃ st', heap (pool w') !! a = Some st'
         ∧ generation st' = bump (retirements a l) (generation st).
Proof.
  intros Hrun Ha.
  destruct (lookup_lt_is_Some_2 (heap (pool w')) a) as [st' Hst'].
  { apply run_heap_length in Hrun. apply lookup_lt_Some in Ha. lia. }
  exists st'. split; [done|].
  by rewrite <- (gen_of_cell _ _ _ Hst'), <- (gen_of_cell _ _ _ Ha), (run_generation _ _ _ _ a Hrun).
Qed.

(** ** The claims about generations *)

(** C3 (amended).  A slot enters the arena with generation 1.  A statement
    that retires the slot replaces its generation [g] by [g + 1] in 32-bit
    two's-complement arithmetic: exactly [g + 1] below [INT32_MAX], and
    [INT32_MIN] at [INT32_MAX].  Every other statement (creation, reading
    or writing through the handle, [get_weak], moves, [set_check_empty],
    [reset] of an empty handle) leaves the generation as it is. *)
Theorem generation_step (o : op) (w w' : World) (l : list event) (a : nat) :
  exec_op o w = Some (w', l) →
  (∀ st', heap (pool w) !! a = None → heap (pool w') !! a = Some st' →
          generation st' = 1%Z)
  ∧ (∀ st, heap (pool w) !! a = Some st →
       ∃ st', heap (pool w') !! a = Some st'
         ∧ (retired_by o w = Some a →
              generation st' = int32_wrap (generation st + 1)
              ∧ ((INT32_MIN ≤ generation st < INT32_MAX)%Z →
                   generation st' = (generation st + 1)%Z)
              ∧ (generation st = INT32_MAX → generation st' = INT32_MIN))
         ∧ (retired_by o w ≠ Some a → generation st' = generation st)).
Proof.
  intros H.
  destruct (exec_op_generation _ _ _ _ a H) as [_ Hgen].
  destruct (exec_op_heap _ _ _ _ H) as [Hlen Halloc].
  split.
  - intros st' Hnone Hst'.
    rewrite decide_False in Hgen.
    + rewrite (gen_of_cell _ _ _ Hst') in Hgen. unfold gen_of in Hgen.
      by rewrite Hnone in Hgen.
    + intros Hr. apply Halloc in Hr as [? Hr]. congruence.
  - intros st Ha.
    destruct (lookup_lt_is_Some_2 (heap (pool w')) a) as [st' Hst'].
    { apply lookup_lt_Some in Ha. lia. }
    exists st'. split; [done|].
    rewrite (gen_of_cell _ _ _ Hst'), (gen_of_cell _ _ _ Ha) in Hgen.
    split.
    + intros Hr. rewrite decide_True in Hgen by done. split; [done|]. split.
      * intros Hrange. rewrite Hgen. apply int32_wrap_id.
        unfold INT32_MIN, INT32_MAX in *. lia.
      * intros Hmax. rewrite Hgen, Hmax. reflexivity.
    + intros Hr. by rewrite decide_False in Hgen.
Qed.

Lemma is_alive_Some (wk : WeakPtr) (p : ObjectPool) a st :
  weak_storage_ wk = Some a → heap p !! a = Some st →
  is_alive wk p
  = Some (bool_decide (weak_generation_ wk = generation st), p,
          [ev_fence memory_order_acquire;
           ev_load (var_generation a) memory_order_relaxed]).
Proof.
  intros Hw Ha. unfold is_alive, load_generation, deref. rewrite Hw.
  munfold. by rewrite Ha.
Qed.

Lemma is_alive_unsafe_Some (wk : WeakPtr) (p : ObjectPool) a st :
  weak_storage_ wk = Some a → heap p !! a = Some st →
  is_alive_unsafe wk p
  = Some (bool_decide (weak_generation_ wk = generation st), p,
          [ev_load (var_generation a) memory_order_relaxed]).
Proof.
  intros Hw Ha. unfold is_alive_unsafe, load_generation, deref. rewrite Hw.
  munfold. by rewrite Ha.
Qed.

Lemma OwnerPtr_get_weak_Some (h : OwnerPtr) (p : ObjectPool) a st :
  storage_ h = Some a → heap p !! a = Some st →
  OwnerPtr_get_weak h p
  = Some (mkWeakPtr (generation st) (Some a), p,
          [ev_load (var_generation a) memory_order_relaxed]).
Proof.
  intros Hs Ha. unfold OwnerPtr_get_weak, load_generation, deref. rewrite Hs.
  munfold. by rewrite Ha.
Qed.

Lemma reachable_cell ops w l a st :
  run ops World_init = Some (w, l) → heap (pool w) !! a = Some st →
  generation st = int32_wrap (1 + Z.of_nat (retirements a l)).
Proof.
  intros Hrun Ha. rewrite <- (gen_of_cell _ _ _ Ha). by eapply reachable_generation.
Qed.

Lemma run_generation_ops ops : ∀ w w' l a,
  run ops w = Some (w', l) →
  gen_of (pool w') a = bump (retired_in a ops w) (gen_of (pool w) a).
Proof.
  induction ops as [|o ops IH]; intros w w' l a; cbn [run retired_in].
  - by intros [= <- <-].
  - destruct (exec_op o w) as [[w1 l1]|] eqn:E1; cbn [mbind option_bind]; [|done].
    destruct (run ops w1) as [[w2 l2]|] eqn:E2; cbn [mbind option_bind]; [|done].
    intros [= <- <-].
    rewrite bump_add, (IH _ _ _ a E2).
    destruct (exec_op_generation _ _ _ _ a E1) as [_ ->].
    by case_decide.
Qed.

Lemma bump_range n g :
  (INT32_MIN ≤ g ≤ INT32_MAX)%Z → bump n g = int32_wrap (g + Z.of_nat n).
Proof. intros Hg. rewrite <- (int32_wrap_id g Hg) at 1. apply bump_wrap. Qed.

Lemma int32_wrap_fixed_iff g n :
  (INT32_MIN ≤ g ≤ INT32_MAX)%Z → (0 ≤ n)%Z →
  int32_wrap (g + n) = g ↔ (n mod 4294967296 = 0)%Z.
Proof.
  unfold int32_wrap, INT32_MIN, INT32_MAX. intros Hg Hn.
  euclid (g + n + 2147483648)%Z. euclid n. lia.
Qed.

Lemma int32_wrap_positive z :
  (1 ≤ int32_wrap z)%Z ↔ (1 ≤ z mod 4294967296 ≤ 2147483647)%Z.
Proof. unfold int32_wrap. euclid (z + 2147483648)%Z. euclid z. lia. Qed.

Lemma int32_wrap_sentinel n :
  int32_wrap (1 + n) = (-1)%Z ↔ (n mod 4294967296 = 4294967294)%Z.
Proof. unfold int32_wrap. euclid (1 + n + 2147483648)%Z. euclid n. lia. Qed.

Lemma reachable_cell_ops ops w l a st :
  run ops World_init = Some (w, l) → heap (pool w) !! a = Some st →
  generation st = int32_wrap (1 + Z.of_nat (retired_in a ops World_init)).
Proof.
  intros Hrun Ha.
  rewrite <- (gen_of_cell _ _ _ Ha), (run_generation_ops _ _ _ _ a Hrun).
  change (gen_of (pool World_init) a) with (int32_wrap 1). apply bump_wrap.
Qed.

Lemma run_cell_ops ops w w' l a st :
  run ops w = Some (w', l) → heap (pool w) !! a = Some st →
  ∃ st', heap (pool w') !! a = Some st'
         ∧ generation st' = bump (retired_in a ops w) (generation st).
Proof.
  intros Hrun Ha.
  destruct (lookup_lt_is_Some_2 (heap (pool w')) a) as [st' Hst'].
  { apply run_heap_length in Hrun. apply lookup_lt_Some in Ha. lia. }
  exists st'. split; [done|].
  by rewrite <- (gen_of_cell _ _ _ Hst'), <- (gen_of_cell _ _ _ Ha),
       (run_generation_ops _ _ _ _ a Hrun).
Qed.

(** A [reset] or [release] of the variable that holds slot [a]. *)
Lemma exec_retire_inv o w w' l i h a :
  o = op_reset i ∨ o = op_release i →
  handles w !! i = Some h → storage_ h = Some a →
  exec_op o w = Some (w', l) →
  ∃ st, heap (pool w) !! a = Some st
        ∧ pool w' = set_head (Some a)
                      (set_heap (<[a := retired_cell st (head_ (pool w))]> (heap (pool w)))
                                (pool w))
        ∧ handles w' = <[i := mkOwnerPtr None (parent_ h)]> (handles w).
Proof.
  intros [-> | ->] Hi Hs; cbn [exec_op]; rewrite Hi; cbn [mbind option_bind].
  - destruct (OwnerPtr_reset h (pool w)) as [[[h' p] l1]|] eqn:E;
      cbn [mbind option_bind]; [|done].
    intros [= <- <-].
    apply OwnerPtr_reset_inv in E
      as [(Hn & _)|(b & st & Hb & Hst & -> & -> & _)]; [congruence|].
    assert (b = a) as -> by congruence. eauto.
  - destruct (release h (pool w)) as [[[h' p] l1]|] eqn:E;
      cbn [mbind option_bind]; [|done].
    intros [= <- <-].
    apply release_inv in E as (b & st & Hb & Hst & -> & -> & _).
    assert (b = a) as -> by congruence. eauto.
Qed.

(** C4 (amended).  Along every execution from the empty pool: the handle
    minted from a freshly created element is alive.  When the element is
    retired, by [reset] or [release] of its owner, the handle is not
    alive; the element created next reuses the slot and the handle is
    still not alive.  In general, after any further statements the handle
    is alive exactly when the number of statements that retired the slot
    since it was minted is a multiple of 2^32. *)
Theorem weak_handle_staleness (ops0 : list op) (w0 w1 : World) (l0 l1 : list event)
    (d : DataT) :
  run ops0 World_init = Some (w0, l0) →
  exec_op (op_create d) w0 = Some (w1, l1) →
  ∃ a h wk lw,
    handles w1 !! length (handles w0) = Some h
    ∧ storage_ h = Some a
    ∧ OwnerPtr_get_weak h (pool w1) = Some (wk, pool w1, lw)
    ∧ (∃ la, is_alive wk (pool w1) = Some (true, pool w1, la))
    ∧ (∀ o w2 l2,
         o = op_reset (length (handles w0)) ∨ o = op_release (length (handles w0)) →
         exec_op o w1 = Some (w2, l2) →
         (∃ la, is_alive wk (pool w2) = Some (false, pool w2, la))
         ∧ ∀ d' w3 l3,
             exec_op (op_create d') w2 = Some (w3, l3) →
             handles w3 !! length (handles w2) = Some (mkOwnerPtr (Some a) (Some this))
             ∧ ∃ la, is_alive wk (pool w3) = Some (false, pool w3, la))
    ∧ ∀ ops w2 l2, run ops w1 = Some (w2, l2) →
        ∃ b la, is_alive wk (pool w2) = Some (b, pool w2, la)
          ∧ (b = true ↔ (Z.of_nat (retired_in a ops w1) mod 4294967296 = 0)%Z).
Proof.
  intros Hrun0 Hcreate.
  assert (Hrun1 : run (ops0 ++ [op_create d]) World_init = Some (w1, l0 ++ l1 ++ [])).
  { apply (run_app _ _ _ _ _ _ _ Hrun0). cbn [run]. by rewrite Hcreate. }
  simpl in Hcreate.
  destruct (create d (pool w0)) as [[[h p] lc]|] eqn:E; simplify_eq/=.
  apply create_inv in E as (r & q & lq & st & Hg & Hr & -> & -> & ->).
  set (cell := mkStorage d (next st) (generation st)).
  set (p1 := set_heap _ q) in *.
  set (hs1 := handles w0 ++ [mkOwnerPtr (Some r) (Some this)]) in *.
  set (w1 := mkWorld p1 hs1) in *.
  set (wk := mkWeakPtr (generation cell) (Some r)).
  assert (Hcell : heap p1 !! r = Some cell).
  { apply list_lookup_insert_eq. by eapply lookup_lt_Some. }
  assert (Hrange : (INT32_MIN ≤ generation cell ≤ INT32_MAX)%Z).
  { rewrite (reachable_cell _ _ _ _ _ Hrun1 Hcell). apply int32_wrap_range. }
  assert (Hh1 : hs1 !! length (handles w0) = Some (mkOwnerPtr (Some r) (Some this))).
  { unfold hs1. by rewrite lookup_app_r, Nat.sub_diag. }
  assert (Hgen : ∀ ops w2 l2, run ops w1 = Some (w2, l2) →
            ∃ b la, is_alive wk (pool w2) = Some (b, pool w2, la)
              ∧ (b = true ↔ (Z.of_nat (retired_in r ops w1) mod 4294967296 = 0)%Z)).
  { intros ops w2 l2 Hrun2.
    destruct (run_cell_ops _ _ _ _ r cell Hrun2 Hcell) as (st2 & Hst2 & Hgen2).
    eexists _, _. split; [apply (is_alive_Some wk _ r st2 eq_refl Hst2)|].
    rewrite bool_decide_eq_true. cbn [weak_generation_ wk].
    rewrite Hgen2, (bump_range _ _ Hrange).
    rewrite <- (int32_wrap_fixed_iff (generation cell)) by (done || lia).
    split; intros Heq; by symmetry. }
  exists r, (mkOwnerPtr (Some r) (Some this)), wk.
  eexists. split; [done|]. split; [done|]. split.
  { exact (OwnerPtr_get_weak_Some (mkOwnerPtr (Some r) (Some this)) p1 r cell eq_refl Hcell). }
  split.
  { eexists. rewrite (is_alive_Some wk p1 r cell eq_refl Hcell).
    by rewrite bool_decide_true. }
  split; [|exact Hgen].
  intros o w2 l2 Ho Hexec.
  assert (Hby : retired_by o w1 = Some r).
  { destruct Ho as [-> | ->]; cbn [retired_by w1 handles]; by rewrite Hh1. }
  assert (Hstale : ∀ ops w3 l3, run (o :: ops) w1 = Some (w3, l3) →
            retired_in r ops w2 = 0%nat →
            ∃ la, is_alive wk (pool w3) = Some (false, pool w3, la)).
  { intros ops w3 l3 Hrun3 Hzero.
    destruct (Hgen _ _ _ Hrun3) as (b & la & Hal & Hb).
    cbn [retired_in] in Hb. rewrite decide_True, Hexec, Hzero in Hb by done.
    destruct b; [|eauto]. pose proof (proj1 Hb eq_refl) as Hf.
    vm_compute in Hf. discriminate Hf. }
  split.
  - apply (Hstale [] w2 (l2 ++ [])); [|done].
    cbn [run]. by rewrite Hexec.
  - intros d' w3 l3 Hexec3.
    destruct (exec_retire_inv o w1 w2 l2 _ (mkOwnerPtr (Some r) (Some this)) r
                Ho Hh1 eq_refl Hexec)
      as (st1 & Hst1 & Hp2 & Hhs2).
    assert (Hhead2 : head_ (pool w2) = Some r) by (by rewrite Hp2).
    assert (Hcell2 : heap (pool w2) !! r = Some (retired_cell st1 (head_ (pool w1)))).
    { rewrite Hp2. cbn [heap set_head set_heap].
      apply list_lookup_insert_eq. by eapply lookup_lt_Some. }
    split.
    + cbn [exec_op] in Hexec3.
      rewrite (create_pop _ d' r _ Hhead2 Hcell2) in Hexec3.
      cbn [mbind option_bind] in Hexec3. injection Hexec3 as <- _.
      cbn [handles]. by rewrite lookup_app_r, Nat.sub_diag.
    + apply (Hstale [op_create d'] w3 (l2 ++ l3 ++ [])).
      * cbn [run]. rewrite Hexec. cbn [mbind option_bind exec_op]. by rewrite Hexec3.
      * cbn [retired_in retired_by]. rewrite decide_False by done.
        by destruct (exec_op (op_create d') w2) as [[? ?]|].
Qed.

(** C10 (amended).  The empty sentinel of [WeakPtr] is generation -1 with
    a null slot reference.  In every pool grown from nothing a slot's
    generation is 1 plus the number [n] of statements that retired it, in
    32-bit arithmetic.  It is at least 1 exactly when [(1 + n) mod 2^32]
    lies in [1, 2^31 - 1], in particular while [n < 2^31 - 1]; it equals
    the sentinel, and a handle stamped with the sentinel is alive on the
    slot, exactly when [n mod 2^32 = 2^32 - 2].  An empty handle is
    reported not alive by [is_alive] and [is_alive_unsafe] in every pool
    state. *)
Theorem generation_positive_until_wrap :
  (WeakPtr_default = mkWeakPtr (-1) None ∧ ∀ wk, WeakPtr_clear wk = mkWeakPtr (-1) None)
  ∧ (∀ ops w l a st,
       run ops World_init = Some (w, l) → heap (pool w) !! a = Some st →
       generation st = int32_wrap (1 + Z.of_nat (retired_in a ops World_init))
       ∧ ((1 ≤ generation st)%Z
          ↔ (1 ≤ (1 + Z.of_nat (retired_in a ops World_init)) mod 4294967296
             ≤ 2147483647)%Z)
       ∧ ((Z.of_nat (retired_in a ops World_init) < 2147483647)%Z →
            (1 ≤ generation st)%Z)
       ∧ (generation st = weak_generation_ WeakPtr_default
          ↔ (Z.of_nat (retired_in a ops World_init) mod 4294967296 = 4294967294)%Z)
       ∧ (∃ b la, is_alive (mkWeakPtr (-1) (Some a)) (pool w) = Some (b, pool w, la)
                  ∧ (b = true
                     ↔ (Z.of_nat (retired_in a ops World_init) mod 4294967296
                        = 4294967294)%Z))
       ∧ (∃ b la, is_alive_unsafe (mkWeakPtr (-1) (Some a)) (pool w)
                  = Some (b, pool w, la)
                  ∧ (b = true
                     ↔ (Z.of_nat (retired_in a ops World_init) mod 4294967296
                        = 4294967294)%Z)))
  ∧ (∀ (p : ObjectPool) wk, weak_storage_ wk = None →
       is_alive wk p = Some (false, p, [])
       ∧ is_alive_unsafe wk p = Some (false, p, [])).
Proof.
  split; [done|]. split.
  - intros ops w l a st Hrun Ha.
    pose proof (reachable_cell_ops _ _ _ _ _ Hrun Ha) as Hgen.
    set (n := Z.of_nat (retired_in a ops World_init)) in *.
    assert (Hsent : generation st = (-1)%Z ↔ (n mod 4294967296 = 4294967294)%Z).
    { rewrite Hgen. apply int32_wrap_sentinel. }
    split; [done|]. split; [rewrite Hgen; apply int32_wrap_positive|].
    split.
    { intros Hn. rewrite Hgen, int32_wrap_id; unfold INT32_MIN, INT32_MAX; lia. }
    split; [exact Hsent|]. split.
    + eexists _, _.
      split; [apply (is_alive_Some (mkWeakPtr (-1) (Some a)) _ a st eq_refl Ha)|].
      rewrite bool_decide_eq_true. cbn [weak_generation_]. rewrite <- Hsent.
      split; intros Heq; by symmetry.
    + eexists _, _.
      split; [apply (is_alive_unsafe_Some (mkWeakPtr (-1) (Some a)) _ a st eq_refl Ha)|].
      rewrite bool_decide_eq_true. cbn [weak_generation_]. rewrite <- Hsent.
      split; intros Heq; by symmetry.
  - intros p wk Hw. unfold is_alive, is_alive_unsafe. by rewrite Hw.
Qed.

(** ** Recycling one slot *)

Lemma recycle_run d d' m :
  ∃ w l st,
    run (recycle d d' m) World_init = Some (w, l)
    ∧ retirements 0 l = S m
    ∧ handles w !! S m = Some (mkOwnerPtr (Some 0%nat) (Some this))
    ∧ heap (pool w) !! 0%nat = Some st
    ∧ generation st = int32_wrap (2 + Z.of_nat m).
Proof.
  destruct (run [op_create d; op_reset 0%nat] World_init) as [[wa la]|] eqn:Ha;
    [|by vm_compute in Ha].
  assert (Hha : head_ (pool wa) = Some 0%nat) by (vm_compute in Ha; by simplify_eq).
  assert (Hca : is_Some (heap (pool wa) !! 0%nat)) by (vm_compute in Ha; simplify_eq; eauto).
  assert (Hla : retirements 0 la = 1%nat).
  { vm_compute in Ha. simplify_eq. unfold retirements, retire_event.
    rewrite !filter_cons_False by done. rewrite filter_cons_True by done.
    by rewrite !filter_cons_False by done. }
  assert (Hwa : handles wa = [mkOwnerPtr None (Some this)]) by (vm_compute in Ha; by simplify_eq).
  destruct (churn_run d 0%nat m wa Hha Hca) as (wb & lb & Hb & Hhb & [stb Hcb] & Hlb & Hwb).
  rewrite Hwa in Hb, Hwb. cbn [length] in Hb.
  assert (Hc : ∃ pc, run [op_create d'] wb
               = Some (mkWorld pc (handles wb ++ [mkOwnerPtr (Some 0%nat) (Some this)]),
                       (pop_log ++ [ev_init_data 0]) ++ [])).
  { eexists. cbn [run exec_op]. by rewrite (create_pop _ d' 0%nat stb Hhb Hcb). }
  destruct Hc as [pc Hc].
  pose proof (run_app _ _ _ _ _ _ _ Hb Hc) as Hbc.
  pose proof (run_app _ _ _ _ _ _ _ Ha Hbc) as Hrun.
  match type of Hrun with _ = Some (?x, ?y) => set (w := x) in *; set (l := y) in * end.
  assert (Hl : retirements 0 l = S m).
  { unfold l. rewrite !retirements_app, Hla, Hlb. unfold pop_log. cbn [app].
    rewrite !retirements_cons_ne by done. rewrite retirements_nil. lia. }
  destruct (lookup_lt_is_Some_2 (heap (pool w)) 0%nat) as [st Hst].
  { apply run_heap_length in Hc. apply lookup_lt_Some in Hcb.
    lia. }
  exists w, l, st. split; [exact Hrun|]. split; [done|]. split; [|split; [done|]].
  - unfold w. cbn [handles]. rewrite Hwb.
    rewrite lookup_app_r; cbn [length app]; rewrite ?length_replicate; [|lia].
    by replace (S m - S m)%nat with 0%nat by lia.
  - rewrite (reachable_cell _ _ _ _ _ Hrun Hst), Hl. f_equal. lia.
Qed.

(** ** The free list *)

Lemma free_list_is_insert (h : list Storage) a c : ∀ fl hd,
  a ∉ fl → free_list_is h hd fl → free_list_is (<[a := c]> h) hd fl.
Proof.
  induction fl as [|b fl IH]; intros hd Ha; simpl; [done|].
  apply not_elem_of_cons in Ha as [Hne Ha].
  intros (-> & st & Hb & Hfl). split; [done|]. exists st. split.
  - by rewrite list_lookup_insert_ne.
  - by apply IH.
Qed.

Lemma free_list_is_app (h h' : list Storage) : ∀ fl hd,
  free_list_is h hd fl → free_list_is (h ++ h') hd fl.
Proof.
  induction fl as [|b fl IH]; intros hd; simpl; [done|].
  intros (-> & st & Hb & Hfl). split; [done|]. exists st. split.
  - by apply lookup_app_l_Some.
  - by apply IH.
Qed.

Lemma free_list_is_bounds (h : list Storage) : ∀ fl hd a,
  free_list_is h hd fl → a ∈ fl → (a < length h)%nat.
Proof.
  induction fl as [|b fl IH]; intros hd a; simpl.
  - by intros _ ?%elem_of_nil.
  - intros (-> & st & Hb & Hfl) [->|Ha]%elem_of_cons.
    + by eapply lookup_lt_Some.
    + by eapply IH.
Qed.

Lemma chunk_cells_length chunk h c : length (chunk_cells chunk h c) = CHUNK_SIZE.
Proof. done. Qed.

Lemma chunk_cells_lookup_0 chunk h c :
  chunk_cells chunk h c !! 0%nat = Some Storage_default.
Proof. done. Qed.

Lemma chunk_cells_lookup_link chunk h c i :
  (1 ≤ i ≤ 61)%nat →
  chunk_cells chunk h c !! i
  = Some (mkStorage DataT_default (Some (chunk + (i + 1))%nat) 1).
Proof.
  intros Hi. unfold chunk_cells. destruct i as [|i]; [lia|].
  rewrite lookup_cons. rewrite lookup_app_l by (rewrite length_fmap, length_seq; lia).
  rewrite list_lookup_fmap, lookup_seq_lt by lia. simpl.
  repeat f_equal; lia.
Qed.

Lemma chunk_cells_lookup_last chunk h c :
  chunk_cells chunk h c !! 62%nat = Some (mkStorage DataT_default h 1).
Proof. done. Qed.

Lemma chunk_cells_lookup_node chunk h c :
  chunk_cells chunk h c !! 63%nat = Some (mkStorage DataT_default c 1).
Proof. done. Qed.

Lemma chunk_cells_data chunk h c i st :
  chunk_cells chunk h c !! i = Some st → data st = DataT_default.
Proof.
  unfold chunk_cells. intros H.
  apply list_elem_of_lookup_2 in H.
  rewrite elem_of_cons, elem_of_app, list_elem_of_fmap, !elem_of_cons, elem_of_nil in H.
  destruct H as [->|[(j & -> & _)|[->|[->|[]]]]]; done.
Qed.

(** The free list a fresh chunk is published with: cells 1..62 in order,
    followed by whatever the free list held before. *)
Lemma free_list_is_chunk (H : list Storage) hd c fl k :
  free_list_is H hd fl → (k ≤ 61)%nat →
  free_list_is (H ++ chunk_cells (length H) hd c) (Some (length H + (62 - k))%nat)
               (seq (length H + (62 - k)) (S k) ++ fl).
Proof.
  intros Hfl. induction k as [|k IH]; intros Hk.
  - simpl. split; [done|]. eexists. split.
    + rewrite lookup_app_r by lia.
      replace (length H + 62 - length H)%nat with 62%nat by lia.
      apply chunk_cells_lookup_last.
    + by apply free_list_is_app.
  - cbn [seq app free_list_is]. split; [done|]. eexists. split.
    + rewrite lookup_app_r by lia.
      replace (length H + (62 - S k) - length H)%nat with (62 - S k)%nat by lia.
      apply chunk_cells_lookup_link. lia.
    + cbn [next].
      replace (length H + (62 - S k + 1))%nat with (length H + (62 - k))%nat by lia.
      replace (S (length H + (62 - S k)))%nat with (length H + (62 - k))%nat by lia.
      apply IH. lia.
Qed.

(** ** Well-formedness along an execution *)

#[local] Arguments seq : simpl never.

Ltac wsimpl :=
  cbn [pool handles heap head_ chunk_list_ set_head set_heap set_flag allocate_chunk_pool].

Lemma step_ok_refl w fl : wf w fl → step_ok w fl w fl.
Proof. intros H. split; [done|]. by intros a Ha. Qed.

Lemma step_ok_trans w1 fl1 w2 fl2 w3 fl3 :
  step_ok w1 fl1 w2 fl2 → step_ok w2 fl2 w3 fl3 → step_ok w1 fl1 w3 fl3.
Proof.
  intros [_ H12] [Hwf H23]. split; [done|]. intros a Ha.
  destruct (H12 a Ha) as [Ha2 He2]. destruct (H23 a Ha2) as [Ha3 He3].
  split; [done|]. congruence.
Qed.

(** Writing a cell held by some handle. *)
Lemma step_ok_write w fl b c :
  wf w fl → owns w b →
  step_ok w fl (mkWorld (set_heap (<[b := c]> (heap (pool w))) (pool w)) (handles w)) fl.
Proof.
  intros Hwf Hb. destruct (wf_owned _ _ Hwf b Hb) as (Hlt & Hus & Hnf).
  split.
  - split; simpl.
    + apply free_list_is_insert; [done|]. apply Hwf.
    + apply Hwf.
    + apply Hwf.
    + intros a Ha. rewrite length_insert. by apply (wf_owned _ _ Hwf).
    + apply Hwf.
    + rewrite length_insert. apply Hwf.
  - intros a (Halt & Hanf & Hano). split.
    + split; [|done]. simpl. by rewrite length_insert.
    + simpl. apply list_lookup_insert_ne. intros ->. by apply Hano.
Qed.

(** Changing nothing but the flag. *)
Lemma step_ok_flag w fl b :
  wf w fl → step_ok w fl (mkWorld (set_flag b (pool w)) (handles w)) fl.
Proof.
  intros Hwf. split.
  - split; simpl; apply Hwf.
  - by intros a Ha.
Qed.

(** Rearranging the handles: every slot held afterwards was held before,
    by a variable that [f] names without collisions. *)
Lemma step_ok_shuffle w fl hs (f : nat → nat) :
  wf w fl →
  (∀ k hk a, hs !! k = Some hk → storage_ hk = Some a →
     ∃ hk', handles w !! f k = Some hk' ∧ storage_ hk' = Some a) →
  (∀ k1 k2 h1 h2, hs !! k1 = Some h1 → hs !! k2 = Some h2 →
     is_Some (storage_ h1) → is_Some (storage_ h2) → f k1 = f k2 → k1 = k2) →
  step_ok w fl (mkWorld (pool w) hs) fl.
Proof.
  intros Hwf Hf Hinj.
  assert (Hown : ∀ a, owns (mkWorld (pool w) hs) a → owns w a).
  { intros a (k & hk & Hk & Hs). destruct (Hf _ _ _ Hk Hs) as (hk' & Hk' & Hs').
    by exists (f k), hk'. }
  split.
  - split; simpl; try apply Hwf.
    + intros a Ha. by apply (wf_owned _ _ Hwf), Hown.
    + intros i j hi hj a Hi Hj Hsi Hsj.
      destruct (Hf _ _ _ Hi Hsi) as (hi' & Hi' & Hsi').
      destruct (Hf _ _ _ Hj Hsj) as (hj' & Hj' & Hsj').
      apply (Hinj i j hi hj Hi Hj); [by rewrite Hsi | by rewrite Hsj|].
      by apply (wf_unique _ _ Hwf _ _ hi' hj' a).
  - intros a (Halt & Hanf & Hano). split; [|done].
    split; [done|]. split; [done|]. intros Ho. by apply Hano, Hown.
Qed.

Lemma owns_snoc p p' hs h a :
  owns (mkWorld p (hs ++ [h])) a ↔ owns (mkWorld p' hs) a ∨ storage_ h = Some a.
Proof.
  unfold owns. simpl. split.
  - intros (i & hi & Hi & Hs). apply lookup_app_Some in Hi as [Hi|[Hge Hi]].
    + left. eauto.
    + right. destruct (i - length hs)%nat; simplify_eq/=. done.
  - intros [(i & hi & Hi & Hs)|Hs].
    + exists i, hi. split; [|done]. by apply lookup_app_l_Some.
    + exists (length hs), h. split; [|done].
      by rewrite lookup_app_r, Nat.sub_diag.
Qed.

Lemma unique_snoc (hs : list OwnerPtr) h :
  (∀ i j hi hj a, hs !! i = Some hi → hs !! j = Some hj →
     storage_ hi = Some a → storage_ hj = Some a → i = j) →
  (∀ i hi a, hs !! i = Some hi → storage_ hi = Some a → storage_ h ≠ Some a) →
  ∀ i j hi hj a, (hs ++ [h]) !! i = Some hi → (hs ++ [h]) !! j = Some hj →
    storage_ hi = Some a → storage_ hj = Some a → i = j.
Proof.
  intros Hu Hnew i j hi hj a Hi Hj Hsi Hsj.
  apply lookup_app_Some in Hi as [Hi|[Hgi Hi]];
    apply lookup_app_Some in Hj as [Hj|[Hgj Hj]].
  - by eapply Hu.
  - destruct (j - length hs)%nat; simplify_eq/=. by destruct (Hnew _ _ _ Hi Hsi).
  - destruct (i - length hs)%nat; simplify_eq/=. by destruct (Hnew _ _ _ Hj Hsj).
  - destruct (i - length hs)%nat eqn:Ei; simplify_eq/=.
    destruct (j - length hs)%nat eqn:Ej; simplify_eq/=. lia.
Qed.

Lemma usable_chunk len i :
  (len mod CHUNK_SIZE)%nat = 0%nat → (i < CHUNK_SIZE - 1)%nat → usable (len + i).
Proof.
  unfold usable, CHUNK_SIZE. intros Hlen Hi.
  rewrite <- Nat.Div0.add_mod_idemp_l, Hlen. simpl (0 + i)%nat.
  rewrite Nat.mod_small by lia. lia.
Qed.

(** Popping the head of the free list into a new handle. *)
Lemma step_ok_pop w r fl st q :
  wf w (r :: fl) → heap (pool w) !! r = Some st →
  step_ok w (r :: fl)
    (mkWorld (set_head (next st) (pool w)) (handles w ++ [mkOwnerPtr (Some r) q])) fl.
Proof.
  intros Hwf Hr.
  destruct (wf_free _ _ Hwf) as (_ & st' & Hr' & Hfl). simplify_eq.
  pose proof (wf_nodup _ _ Hwf) as [Hrfl Hnd]%NoDup_cons.
  split.
  - split; simpl.
    + done.
    + done.
    + intros a Ha. apply (wf_usable _ _ Hwf). by right.
    + intros a [Ha|Ha]%(owns_snoc _ (pool w)).
      * destruct (wf_owned _ _ Hwf a) as (? & ? & Hn); [by destruct w|].
        apply not_elem_of_cons in Hn as [_ Hn]. done.
      * simplify_eq/=. split; [by eapply lookup_lt_Some|]. split; [|done].
        apply (wf_usable _ _ Hwf). by left.
    + apply unique_snoc; [apply Hwf|]. intros i hi a Hi Hs [= <-].
      destruct (wf_owned _ _ Hwf r) as (_ & _ & Hn); [by exists i, hi|].
      apply Hn. by left.
    + apply Hwf.
  - intros a (Halt & Hanf & Hano). apply not_elem_of_cons in Hanf as [Hne Hanf].
    split; [|done]. split; [done|]. split; [done|].
    intros [Ha|Ha]%(owns_snoc _ (pool w)).
    + apply Hano. by destruct w.
    + simplify_eq/=.
Qed.

(** Allocating a chunk into a new handle. *)
Lemma step_ok_alloc w q :
  wf w [] →
  step_ok w []
    (mkWorld (allocate_chunk_pool (pool w))
             (handles w ++ [mkOwnerPtr (Some (length (heap (pool w)))) q]))
    (seq (length (heap (pool w)) + 1) 62).
Proof.
  intros Hwf. pose proof (wf_free _ _ Hwf) as Hhead. simpl in Hhead.
  pose proof (wf_chunks _ _ Hwf) as Hch.
  set (len := length (heap (pool w))) in *.
  assert (Hseq : ∀ a, a ∈ seq (len + 1) 62 ↔ (len + 1 ≤ a < len + 63)%nat).
  { intros a. rewrite elem_of_seq. lia. }
  split.
  - split; wsimpl.
    + rewrite Hhead.
      pose proof (free_list_is_chunk (heap (pool w)) None (chunk_list_ (pool w)) [] 61
                    eq_refl ltac:(lia)) as H.
      rewrite app_nil_r in H. exact H.
    + apply NoDup_seq.
    + intros a [Hlo Hhi]%Hseq.
      replace a with (len + (a - len))%nat by lia. apply usable_chunk; [done|].
      unfold CHUNK_SIZE. lia.
    + intros a [Ha|Ha]%(owns_snoc _ (pool w)).
      * destruct (wf_owned _ _ Hwf a) as (Hlt & Hus & _); [by destruct w|].
        rewrite length_app, chunk_cells_length. unfold CHUNK_SIZE.
        split; [fold len; lia|]. split; [done|]. rewrite Hseq. fold len in Hlt. lia.
      * simpl in Ha. injection Ha as <-.
        rewrite length_app, chunk_cells_length. unfold CHUNK_SIZE.
        split; [lia|]. split.
        -- replace len with (len + 0)%nat by lia.
           apply usable_chunk; [done|]. unfold CHUNK_SIZE. lia.
        -- rewrite Hseq. lia.
    + apply unique_snoc; [apply Hwf|]. intros i hi a Hi Hs Ha.
      simpl in Ha. injection Ha as <-.
      destruct (wf_owned _ _ Hwf len) as (Hlt & _); [by exists i, hi|].
      fold len in Hlt. lia.
    + rewrite length_app, chunk_cells_length. fold len.
      rewrite <- Nat.Div0.add_mod_idemp_l, Hch. done.
  - intros a (Halt & Hanf & Hano). fold len in Halt. split.
    + split; [wsimpl; rewrite length_app; fold len; lia|]. split.
      * rewrite Hseq. lia.
      * intros [Ha|Ha]%(owns_snoc _ (pool w)).
        -- apply Hano. by destruct w.
        -- simpl in Ha. injection Ha as <-. lia.
    + wsimpl. by rewrite lookup_app_l.
Qed.

(** Retiring the slot held by variable [i]. *)
Lemma step_ok_retire w fl i h b st q :
  wf w fl → handles w !! i = Some h → storage_ h = Some b →
  heap (pool w) !! b = Some st →
  step_ok w fl
    (mkWorld (set_head (Some b)
                (set_heap (<[b := retired_cell st (head_ (pool w))]> (heap (pool w)))
                          (pool w)))
             (<[i := mkOwnerPtr None q]> (handles w)))
    (b :: fl).
Proof.
  intros Hwf Hi Hs Hb.
  assert (Hob : owns w b) by (by exists i, h).
  destruct (wf_owned _ _ Hwf b Hob) as (Hlt & Hus & Hnf).
  assert (Hold : ∀ k hk a, <[i := mkOwnerPtr None q]> (handles w) !! k = Some hk →
                           storage_ hk = Some a →
                           k ≠ i ∧ handles w !! k = Some hk).
  { intros k hk a Hk Hsk. destruct (decide (k = i)) as [->|Hne].
    - rewrite list_lookup_insert_eq in Hk by (by eapply lookup_lt_Some).
      by simplify_eq/=.
    - by rewrite list_lookup_insert_ne in Hk. }
  split.
  - split; simpl.
    + split; [done|]. eexists. split; [by apply list_lookup_insert_eq|].
      simpl. apply free_list_is_insert; [done|]. apply Hwf.
    + apply NoDup_cons. split; [done|]. apply Hwf.
    + intros a [->|Ha]%elem_of_cons; [done|]. by apply (wf_usable _ _ Hwf).
    + intros a (k & hk & Hk & Hsk). destruct (Hold _ _ _ Hk Hsk) as [Hne Hk'].
      destruct (wf_owned _ _ Hwf a) as (? & ? & ?); [by exists k, hk|].
      rewrite length_insert. split; [done|]. split; [done|].
      apply not_elem_of_cons. split; [|done]. intros ->.
      apply Hne. by apply (wf_unique _ _ Hwf k i hk h b).
    + intros k1 k2 h1 h2 a H1 H2 Hs1 Hs2.
      destruct (Hold _ _ _ H1 Hs1) as [_ H1']. destruct (Hold _ _ _ H2 Hs2) as [_ H2'].
      by apply (wf_unique _ _ Hwf k1 k2 h1 h2 a).
    + rewrite length_insert. apply Hwf.
  - intros a (Halt & Hanf & Hano).
    assert (Hne : b ≠ a) by (intros ->; by apply Hano).
    split.
    + split; [simpl; by rewrite length_insert|]. split.
      * apply not_elem_of_cons. split; [done|done].
      * intros (k & hk & Hk & Hsk). destruct (Hold _ _ _ Hk Hsk) as [_ Hk'].
        apply Hano. by exists k, hk.
    + simpl. by apply list_lookup_insert_ne.
Qed.

Lemma free_list_is_None (h : list Storage) fl : free_list_is h None fl → fl = [].
Proof. destruct fl; [done|]. by intros [? _]. Qed.

Lemma free_list_is_Some (h : list Storage) r fl :
  free_list_is h (Some r) fl → ∃ fl', fl = r :: fl'.
Proof. destruct fl as [|b fl]; [done|]. intros [[= <-] _]. eauto. Qed.

Lemma world_eta w : mkWorld (pool w) (handles w) = w.
Proof. by destruct w. Qed.

Lemma step_ok_get_storage w fl r p' l q :
  wf w fl → get_storage (pool w) = Some (r, p', l) →
  ∃ fl', step_ok w fl (mkWorld p' (handles w ++ [mkOwnerPtr (Some r) q])) fl'.
Proof.
  intros Hwf [(Hh & -> & -> & _)|(st & Hh & Hr & -> & _)]%get_storage_inv.
  - pose proof (wf_free _ _ Hwf) as Hfl. rewrite Hh in Hfl.
    apply free_list_is_None in Hfl as ->. eexists. by apply step_ok_alloc.
  - pose proof (wf_free _ _ Hwf) as Hfl. rewrite Hh in Hfl.
    apply free_list_is_Some in Hfl as [fl' ->]. exists fl'. by apply step_ok_pop.
Qed.

Lemma step_ok_move w fl i h :
  wf w fl → handles w !! i = Some h →
  step_ok w fl
    (mkWorld (pool w)
       (<[i := mkOwnerPtr None None]> (handles w)
        ++ [mkOwnerPtr (storage_ h) (parent_ h)])) fl.
Proof.
  intros Hwf Hi. pose proof (lookup_lt_Some _ _ _ Hi) as Hlt.
  apply (step_ok_shuffle w fl _
           (λ k, if decide (k = length (handles w)) then i else k) Hwf).
  - intros k hk a Hk Hs. apply lookup_app_Some in Hk as [Hk|[Hge Hk]].
    + pose proof (lookup_lt_Some _ _ _ Hk) as Hklt. rewrite length_insert in Hklt.
      rewrite decide_False by lia.
      destruct (decide (k = i)) as [->|Hne].
      * rewrite list_lookup_insert_eq in Hk by done. by simplify_eq/=.
      * rewrite list_lookup_insert_ne in Hk by done. eauto.
    + rewrite length_insert in Hge, Hk.
      destruct (k - length (handles w))%nat eqn:E; simplify_eq/=.
      rewrite decide_True by lia. eauto.
  - intros k1 k2 h1 h2 H1 H2 [a1 Hs1] [a2 Hs2].
    assert (Hfacts : ∀ k hk a, (<[i := mkOwnerPtr None None]> (handles w)
                               ++ [mkOwnerPtr (storage_ h) (parent_ h)]) !! k = Some hk →
                               storage_ hk = Some a →
                               (k ≤ length (handles w))%nat ∧ k ≠ i).
    { intros k hk a Hk Hs. apply lookup_app_Some in Hk as [Hk|[Hge Hk]].
      - pose proof (lookup_lt_Some _ _ _ Hk) as Hklt. rewrite length_insert in Hklt.
        split; [lia|]. intros ->.
        rewrite list_lookup_insert_eq in Hk by done. by simplify_eq/=.
      - rewrite length_insert in Hge, Hk.
        destruct (k - length (handles w))%nat eqn:E; simplify_eq/=. lia. }
    destruct (Hfacts _ _ _ H1 Hs1) as [Hle1 Hn1].
    destruct (Hfacts _ _ _ H2 Hs2) as [Hle2 Hn2].
    repeat case_decide; lia.
Qed.

Lemma step_ok_move_assign w fl i j hi hj :
  wf w fl → handles w !! i = Some hi → handles w !! j = Some hj → i ≠ j →
  step_ok w fl
    (mkWorld (pool w)
       (<[i := mkOwnerPtr (storage_ hj) (parent_ hj)]>
          (<[j := mkOwnerPtr None None]> (handles w)))) fl.
Proof.
  intros Hwf Hi Hj Hij.
  pose proof (lookup_lt_Some _ _ _ Hi) as Hilt.
  pose proof (lookup_lt_Some _ _ _ Hj) as Hjlt.
  assert (Hfacts : ∀ k hk a,
            <[i := mkOwnerPtr (storage_ hj) (parent_ hj)]>
              (<[j := mkOwnerPtr None None]> (handles w)) !! k = Some hk →
            storage_ hk = Some a →
            k ≠ j ∧ ((k = i ∧ storage_ hj = Some a) ∨ (k ≠ i ∧ handles w !! k = Some hk))).
  { intros k hk a Hk Hs. destruct (decide (k = i)) as [->|Hne].
    - rewrite list_lookup_insert_eq in Hk by (by rewrite length_insert).
      simplify_eq/=. auto.
    - rewrite list_lookup_insert_ne in Hk by done.
      destruct (decide (k = j)) as [->|Hnj].
      + rewrite list_lookup_insert_eq in Hk by done. by simplify_eq/=.
      + rewrite list_lookup_insert_ne in Hk by done. auto. }
  apply (step_ok_shuffle w fl _ (λ k, if decide (k = i) then j else k) Hwf).
  - intros k hk a Hk Hs.
    destruct (Hfacts _ _ _ Hk Hs) as [Hkj [[-> Hsj]|[Hki Hk']]].
    + rewrite decide_True by done. eauto.
    + rewrite decide_False by done. eauto.
  - intros k1 k2 h1 h2 H1 H2 [a1 Hs1] [a2 Hs2].
    destruct (Hfacts _ _ _ H1 Hs1) as [Hn1 _].
    destruct (Hfacts _ _ _ H2 Hs2) as [Hn2 _].
    repeat case_decide; congruence.
Qed.

(** Every statement keeps the world well formed and leaked slots leaked. *)
Lemma exec_op_step_ok o w w' l fl :
  wf w fl → exec_op o w = Some (w', l) → ∃ fl', step_ok w fl w' fl'.
Proof.
  intros Hwf. destruct o as [d| |i|i|i|i j|i|i d|i|flag]; simpl; intros H.
  - destruct (create d (pool w)) as [[[h p] l1]|] eqn:E; simplify_eq/=.
    apply create_inv in E as (r & q & lq & st & Hg & Hr & -> & -> & ->).
    destruct (step_ok_get_storage _ _ _ _ _ (Some this) Hwf Hg) as [fl' Hok].
    exists fl'. eapply step_ok_trans; [exact Hok|].
    apply (step_ok_write (mkWorld q _) fl' r); [apply Hok|].
    apply (owns_snoc _ q). by right.
  - destruct (create_empty (pool w)) as [[[h p] l1]|] eqn:E; simplify_eq/=.
    apply create_empty_inv in E as (r & Hg & ->).
    by eapply step_ok_get_storage.
  - destruct (handles w !! i) as [h|] eqn:Hi; simplify_eq/=.
    destruct (OwnerPtr_reset h (pool w)) as [[[h' p] l1]|] eqn:E; simplify_eq/=.
    apply OwnerPtr_reset_inv in E
      as [(Hs & -> & -> & ->)|(b & st & Hs & Hb & -> & -> & ->)].
    + exists fl. rewrite list_insert_id, world_eta by done. by apply step_ok_refl.
    + eexists. by eapply step_ok_retire.
  - destruct (handles w !! i) as [h|] eqn:Hi; simplify_eq/=.
    destruct (release h (pool w)) as [[[h' p] l1]|] eqn:E; simplify_eq/=.
    apply release_inv in E as (b & st & Hs & Hb & -> & -> & ->).
    eexists. by eapply step_ok_retire.
  - destruct (handles w !! i) as [h|] eqn:Hi; simplify_eq/=.
    exists fl. by apply step_ok_move.
  - destruct (handles w !! i) as [hi|] eqn:Hi; simplify_eq/=.
    destruct (handles w !! j) as [hj|] eqn:Hj; simplify_eq/=.
    destruct (decide (i = j)) as [->|Hij]; simplify_eq/=.
    + exists fl. by apply step_ok_refl.
    + exists fl. by eapply step_ok_move_assign.
  - destruct (handles w !! i) as [h|] eqn:Hi; simplify_eq/=.
    destruct (OwnerPtr_get h (pool w)) as [[[x p] l1]|] eqn:E; simplify_eq/=.
    apply OwnerPtr_get_inv in E as [-> ->].
    exists fl. rewrite world_eta. by apply step_ok_refl.
  - destruct (handles w !! i) as [h|] eqn:Hi; simplify_eq/=.
    destruct (OwnerPtr_set h d (pool w)) as [[[[] p] l1]|] eqn:E; simplify_eq/=.
    apply OwnerPtr_set_inv in E as (b & st & Hs & Hb & -> & ->).
    exists fl. apply step_ok_write; [done|]. by exists i, h.
  - destruct (handles w !! i) as [h|] eqn:Hi; simplify_eq/=.
    destruct (OwnerPtr_get_weak h (pool w)) as [[[x p] l1]|] eqn:E; simplify_eq/=.
    apply OwnerPtr_get_weak_inv in E as (b & st & Hs & Hb & -> & -> & ->).
    exists fl. rewrite world_eta. by apply step_ok_refl.
  - unfold set_check_empty, modify in H. simplify_eq/=.
    exists fl. by apply step_ok_flag.
Qed.

Lemma run_step_ok ops : ∀ w w' l fl,
  wf w fl → run ops w = Some (w', l) → ∃ fl', step_ok w fl w' fl'.
Proof.
  induction ops as [|o ops IH]; intros w w' l fl Hwf; simpl.
  - intros [= <- <-]. exists fl. by apply step_ok_refl.
  - destruct (exec_op o w) as [[w1 l1]|] eqn:E1; simpl; [|done].
    destruct (run ops w1) as [[w2 l2]|] eqn:E2; simpl; [|done].
    intros [= <- <-].
    destruct (exec_op_step_ok _ _ _ _ _ Hwf E1) as [fl1 H1].
    destruct (IH _ _ _ fl1 (proj1 H1) E2) as [fl2 H2].
    exists fl2. by eapply step_ok_trans.
Qed.

Lemma wf_init : wf World_init [].
Proof.
  split; simpl; try done.
  - apply NoDup_nil_2.
  - by intros a ?%elem_of_nil.
  - intros a (i & h & Hi & _). by destruct i.
Qed.

Lemma reachable_wf w : reachable w → ∃ fl, wf w fl.
Proof.
  intros (ops & l & Hrun).
  destruct (run_step_ok _ _ _ _ _ wf_init Hrun) as [fl [Hwf _]]. eauto.
Qed.

Lemma free_list_is_inj (h : list Storage) : ∀ fl1 fl2 hd,
  free_list_is h hd fl1 → free_list_is h hd fl2 → fl1 = fl2.
Proof.
  induction fl1 as [|a fl1 IH]; intros [|b fl2] hd; simpl; try done.
  - intros -> [? _]. done.
  - intros [-> _] ?. done.
  - intros (-> & st & Ha & H1) ([= <-] & st' & Ha' & H2). simplify_eq.
    f_equal. by eapply IH.
Qed.

(** ** Filling chunks *)

Lemma drain_run fl : ∀ w,
  free_list_is (heap (pool w)) (head_ (pool w)) fl →
  ∃ w' l,
    run (replicate (length fl) op_create_empty) w = Some (w', l)
    ∧ head_ (pool w') = None
    ∧ storage_count_ (pool w') = storage_count_ (pool w)
    ∧ heap (pool w') = heap (pool w).
Proof.
  induction fl as [|a fl IH]; intros w; cbn [free_list_is length replicate run].
  - intros Hh. by exists w, [].
  - intros (Hh & st & Ha & Hfl). cbn [exec_op]. unfold create_empty.
    rewrite (mbind_Some _ _ _ _ _ _ (get_storage_pop _ _ _ Hh Ha)).
    cbn [mret M_ret mbind option_bind].
    destruct (IH (mkWorld (set_head (next st) (pool w))
                          (handles w ++ [mkOwnerPtr (Some a) (Some this)])) Hfl)
      as (w' & l & Hrun & Hh' & Hc & Hheap).
    rewrite Hrun. cbn [mbind option_bind]. eauto 10.
Qed.

Lemma fill_chunk_run w :
  head_ (pool w) = None →
  ∃ w' l,
    run (replicate 63 op_create_empty) w = Some (w', l)
    ∧ head_ (pool w') = None
    ∧ storage_count_ (pool w') = int32_wrap (storage_count_ (pool w) + 64).
Proof.
  intros Hh. change 63%nat with (S 62). rewrite replicate_S.
  set (rest := replicate 62 op_create_empty).
  cbn [run exec_op].
  unfold create_empty. rewrite (mbind_Some _ _ _ _ _ _ (get_storage_empty _ Hh)).
  cbn [mret M_ret mbind option_bind].
  set (w1 := mkWorld _ _).
  assert (Hfl : free_list_is (heap (pool w1)) (head_ (pool w1))
                             (seq (length (heap (pool w)) + 1) 62)).
  { unfold w1. wsimpl. rewrite Hh.
    pose proof (free_list_is_chunk (heap (pool w)) None (chunk_list_ (pool w)) [] 61
                  eq_refl ltac:(lia)) as H.
    by rewrite app_nil_r in H. }
  destruct (drain_run _ w1 Hfl) as (w' & l & Hrun & Hh' & Hc & _).
  rewrite length_seq in Hrun. subst rest. rewrite Hrun. cbn [mbind option_bind].
  eexists _, _. split; [reflexivity|]. split; [done|]. by rewrite Hc.
Qed.

Lemma fill_chunks_run n : ∀ w,
  head_ (pool w) = None →
  ∃ w' l,
    run (fill_chunks n) w = Some (w', l)
    ∧ head_ (pool w') = None
    ∧ int32_wrap (storage_count_ (pool w'))
      = int32_wrap (storage_count_ (pool w) + 64 * Z.of_nat n)
    ∧ ((0 < n)%nat →
         storage_count_ (pool w')
         = int32_wrap (storage_count_ (pool w) + 64 * Z.of_nat n)).
Proof.
  unfold fill_chunks. induction n as [|n IH]; intros w Hh.
  - exists w, []. split; [done|]. split; [done|]. split; [f_equal; lia|lia].
  - replace (63 * S n)%nat with (63 * n + 63)%nat by lia. rewrite replicate_add.
    destruct (IH w Hh) as (w1 & l1 & Hrun1 & Hh1 & Hc1 & _).
    destruct (fill_chunk_run w1 Hh1) as (w2 & l2 & Hrun2 & Hh2 & Hc2).
    assert (Hc : storage_count_ (pool w2)
                 = int32_wrap (storage_count_ (pool w) + 64 * Z.of_nat (S n))).
    { rewrite Hc2, <- int32_wrap_add_l, Hc1, int32_wrap_add_l. f_equal. lia. }
    exists w2, (l1 ++ l2). split; [by eapply run_app|]. split; [done|].
    split; [|done]. rewrite Hc. apply int32_wrap_id, int32_wrap_range.
Qed.

(** ** The claims about chunks and leaked slots *)

(** C6 (amended).  A [get_storage] that finds the free list empty appends
    one chunk of 64 cells with default payload and generation 1; cells
    1..61 point to their successor and cell 62 ends the list, so the free
    list is exactly cells 1..62; cell 63 heads the chunk list and points
    to the previous chunk node; cell 0 is returned without having been on
    the free list; [storage_count_] is incremented by 64 in 32-bit
    arithmetic (exactly 64 unless the counter wraps).  In every pool grown
    from nothing no handle and no [get_storage] result is ever the last
    cell of a chunk. *)
Theorem chunk_allocation :
  (∀ p : ObjectPool, head_ p = None →
     ∃ p' l cells,
       get_storage p = Some (length (heap p), p', l)
       ∧ heap p' = heap p ++ cells
       ∧ length cells = 64%nat
       ∧ (∀ i st, cells !! i = Some st →
                  data st = DataT_default ∧ generation st = 1%Z)
       ∧ (∀ i, (1 ≤ i ≤ 61)%nat →
               ∃ st, cells !! i = Some st
                     ∧ next st = Some (length (heap p) + (i + 1))%nat)
       ∧ (∃ st, cells !! 62%nat = Some st ∧ next st = None)
       ∧ (∃ st, cells !! 63%nat = Some st ∧ next st = chunk_list_ p)
       ∧ head_ p' = Some (length (heap p) + 1)%nat
       ∧ free_list_is (heap p') (head_ p') (seq (length (heap p) + 1) 62)
       ∧ chunk_list_ p' = Some (length (heap p) + 63)%nat
       ∧ storage_count_ p' = int32_wrap (storage_count_ p + 64)
       ∧ ((INT32_MIN ≤ storage_count_ p ≤ INT32_MAX - 64)%Z →
            storage_count_ p' = (storage_count_ p + 64)%Z)
       ∧ l = [ev_load var_head memory_order_acquire;
              ev_new_chunk (length (heap p));
              ev_fetch_add var_storage_count 64 memory_order_relaxed;
              ev_load var_head memory_order_relaxed;
              ev_cas var_head true memory_order_release memory_order_relaxed;
              ev_load var_chunk_list memory_order_relaxed;
              ev_cas var_chunk_list true memory_order_release memory_order_relaxed])
  ∧ (∀ ops w l, run ops World_init = Some (w, l) →
       (∀ a, owns w a → usable a)
       ∧ (∀ fl a, free_list_is (heap (pool w)) (head_ (pool w)) fl → a ∈ fl → usable a)
       ∧ (∀ r p' l', get_storage (pool w) = Some (r, p', l') → usable r)).
Proof.
  split.
  - intros p Hh. rewrite (get_storage_empty _ Hh).
    eexists _, _, (chunk_cells (length (heap p)) None (chunk_list_ p)).
    split; [reflexivity|]. unfold allocate_chunk_pool. wsimpl. rewrite Hh.
    split; [done|]. split; [done|]. split.
    { intros i st Hi. split; [by eapply chunk_cells_data|by eapply chunk_cells_generation]. }
    split.
    { intros i Hi. eexists. split; [by apply chunk_cells_lookup_link|done]. }
    split; [by eexists|]. split; [by eexists|]. split; [done|]. split.
    { pose proof (free_list_is_chunk (heap p) None (chunk_list_ p) [] 61
                    eq_refl ltac:(lia)) as H.
      by rewrite app_nil_r in H. }
    split; [done|]. split; [done|]. split; [|done].
    intros Hrange. apply int32_wrap_id. unfold INT32_MIN, INT32_MAX in *. lia.
  - intros ops w l Hrun.
    destruct (run_step_ok _ _ _ _ _ wf_init Hrun) as [fl [Hwf _]].
    split; [|split].
    + intros a Ha. by apply (wf_owned _ _ Hwf).
    + intros fl' a Hfl' Ha.
      rewrite (free_list_is_inj _ _ _ _ Hfl' (wf_free _ _ Hwf)) in Ha.
      by apply (wf_usable _ _ Hwf).
    + intros r p' l' Hg.
      destruct (step_ok_get_storage _ _ _ _ _ (Some this) Hwf Hg) as [fl' [Hwf' _]].
      apply (wf_owned _ _ Hwf'). apply (owns_snoc _ p'). by right.
Qed.


(** ** Chunk bookkeeping along an execution *)

Lemma usable_not_node b j : usable b → b ≠ (CHUNK_SIZE * j + (CHUNK_SIZE - 1))%nat.
Proof.
  unfold usable, CHUNK_SIZE. intros Hu ->. apply Hu.
  rewrite Nat.add_comm, Nat.mul_comm, Nat.Div0.mod_add. reflexivity.
Qed.

Lemma chunk_list_is_insert (h : list Storage) b c : usable b → ∀ k node,
  chunk_list_is h node k → chunk_list_is (<[b := c]> h) node k.
Proof.
  intros Hu. induction k as [|k IH]; intros node; cbn [chunk_list_is]; [done|].
  intros (-> & st & Hst & Hk). split; [done|]. exists st. split.
  - rewrite list_lookup_insert_ne; [done|]. by apply usable_not_node.
  - by apply IH.
Qed.

Lemma chunk_list_is_app (h h' : list Storage) : ∀ k node,
  chunk_list_is h node k → chunk_list_is (h ++ h') node k.
Proof.
  induction k as [|k IH]; intros node; cbn [chunk_list_is]; [done|].
  intros (-> & st & Hst & Hk). split; [done|]. exists st. split.
  - by apply lookup_app_l_Some.
  - by apply IH.
Qed.

Lemma pool_sound_set_head (p : ObjectPool) k x :
  pool_sound p k → pool_sound (set_head x p) k.
Proof. intros [? ? ?]. by split. Qed.

Lemma pool_sound_set_flag (p : ObjectPool) k b :
  pool_sound p k → pool_sound (set_flag b p) k.
Proof. intros [? ? ?]. by split. Qed.

Lemma pool_sound_write (p : ObjectPool) k b c :
  usable b → pool_sound p k → pool_sound (set_heap (<[b := c]> (heap p)) p) k.
Proof.
  intros Hu [Hl Hc Hk]. split; wsimpl.
  - by rewrite length_insert.
  - cbn [storage_count_ set_heap]. by rewrite length_insert.
  - by apply chunk_list_is_insert.
Qed.

Lemma pool_sound_alloc (p : ObjectPool) k :
  pool_sound p k → pool_sound (allocate_chunk_pool p) (S k).
Proof.
  intros [Hl Hc Hk]. split; wsimpl.
  - rewrite length_app, chunk_cells_length, Hl. unfold CHUNK_SIZE. lia.
  - unfold allocate_chunk_pool at 1. cbn [storage_count_]. rewrite Hc, int32_wrap_add_l.
    rewrite length_app, chunk_cells_length. f_equal. unfold CHUNK_SIZE. lia.
  - cbn [chunk_list_is]. rewrite <- Hl. split; [done|].
    exists (mkStorage DataT_default (chunk_list_ p) 1). split.
    + rewrite lookup_app_r by lia.
      replace (length (heap p) + (CHUNK_SIZE - 1) - length (heap p))%nat
        with 63%nat by (unfold CHUNK_SIZE; lia).
      apply chunk_cells_lookup_node.
    + by apply chunk_list_is_app.
Qed.

Lemma pool_sound_get_storage (p p' : ObjectPool) k r l :
  pool_sound p k → get_storage p = Some (r, p', l) →
  ∃ k', pool_sound p' k'.
Proof.
  intros Hps [(_ & _ & -> & _)|(st & _ & _ & -> & _)]%get_storage_inv.
  - exists (S k). by apply pool_sound_alloc.
  - exists k. by apply pool_sound_set_head.
Qed.

Lemma get_storage_usable w fl r p' l :
  wf w fl → get_storage (pool w) = Some (r, p', l) → usable r.
Proof.
  intros Hwf Hg.
  destruct (step_ok_get_storage _ _ _ _ _ (Some this) Hwf Hg) as [fl' [Hwf' _]].
  apply (wf_owned _ _ Hwf'). apply (owns_snoc _ p'). by right.
Qed.

Lemma exec_op_pool_sound o w w' l fl k :
  wf w fl → pool_sound (pool w) k → exec_op o w = Some (w', l) →
  ∃ k', pool_sound (pool w') k'.
Proof.
  intros Hwf Hps. destruct o as [d| |i|i|i|i j|i|i d|i|flag]; simpl; intros H.
  - destruct (create d (pool w)) as [[[h p] l1]|] eqn:E; simplify_eq/=.
    apply create_inv in E as (r & q & lq & st & Hg & Hr & -> & -> & ->).
    destruct (pool_sound_get_storage _ _ _ _ _ Hps Hg) as [k' Hq].
    exists k'. apply pool_sound_write; [|done]. by eapply get_storage_usable.
  - destruct (create_empty (pool w)) as [[[h p] l1]|] eqn:E; simplify_eq/=.
    apply create_empty_inv in E as (r & Hg & ->).
    by eapply pool_sound_get_storage.
  - destruct (handles w !! i) as [h|] eqn:Hi; simplify_eq/=.
    destruct (OwnerPtr_reset h (pool w)) as [[[h' p] l1]|] eqn:E; simplify_eq/=.
    apply OwnerPtr_reset_inv in E
      as [(Hs & -> & -> & ->)|(b & st & Hs & Hb & -> & -> & ->)]; [eauto|].
    exists k. apply pool_sound_set_head, pool_sound_write; [|done].
    apply (wf_owned _ _ Hwf). by exists i, h.
  - destruct (handles w !! i) as [h|] eqn:Hi; simplify_eq/=.
    destruct (release h (pool w)) as [[[h' p] l1]|] eqn:E; simplify_eq/=.
    apply release_inv in E as (b & st & Hs & Hb & -> & -> & ->).
    exists k. apply pool_sound_set_head, pool_sound_write; [|done].
    apply (wf_owned _ _ Hwf). by exists i, h.
  - destruct (handles w !! i) as [h|] eqn:Hi; simplify_eq/=. eauto.
  - destruct (handles w !! i) as [hi|] eqn:Hi; simplify_eq/=.
    destruct (handles w !! j) as [hj|] eqn:Hj; simplify_eq/=.
    destruct (decide (i = j)); simplify_eq/=; eauto.
  - destruct (handles w !! i) as [h|] eqn:Hi; simplify_eq/=.
    destruct (OwnerPtr_get h (pool w)) as [[[x p] l1]|] eqn:E; simplify_eq/=.
    apply OwnerPtr_get_inv in E as [-> ->]. eauto.
  - destruct (handles w !! i) as [h|] eqn:Hi; simplify_eq/=.
    destruct (OwnerPtr_set h d (pool w)) as [[[[] p] l1]|] eqn:E; simplify_eq/=.
    apply OwnerPtr_set_inv in E as (b & st & Hs & Hb & -> & ->).
    exists k. apply pool_sound_write; [|done].
    apply (wf_owned _ _ Hwf). by exists i, h.
  - destruct (handles w !! i) as [h|] eqn:Hi; simplify_eq/=.
    destruct (OwnerPtr_get_weak h (pool w)) as [[[x p] l1]|] eqn:E; simplify_eq/=.
    apply OwnerPtr_get_weak_inv in E as (b & st & Hs & Hb & -> & -> & ->). eauto.
  - unfold set_check_empty, modify in H. simplify_eq/=.
    exists k. by apply pool_sound_set_flag.
Qed.

Lemma parents_ok_snoc hs h :
  parents_ok hs → (is_Some (storage_ h) → parent_ h = Some this) →
  parents_ok (hs ++ [h]).
Proof.
  intros Hhs Hh i hi Hi Hs. apply lookup_app_Some in Hi as [Hi|[_ Hi]].
  - by eapply Hhs.
  - destruct (i - length hs)%nat; simplify_eq/=. by apply Hh.
Qed.

Lemma parents_ok_insert hs i h :
  parents_ok hs → (is_Some (storage_ h) → parent_ h = Some this) →
  parents_ok (<[i := h]> hs).
Proof.
  intros Hhs Hh k hk Hk Hs. destruct (decide (k = i)) as [->|Hne].
  - apply list_lookup_insert_Some in Hk as [(_ & <- & _)|[? _]]; [by apply Hh|done].
  - rewrite list_lookup_insert_ne in Hk by done. by eapply Hhs.
Qed.

Lemma exec_op_parents_ok o w w' l :
  parents_ok (handles w) → exec_op o w = Some (w', l) → parents_ok (handles w').
Proof.
  intros Hpo. destruct o as [d| |i|i|i|i j|i|i d|i|flag]; simpl; intros H.
  - destruct (create d (pool w)) as [[[h p] l1]|] eqn:E; simplify_eq/=.
    apply create_inv in E as (r & q & lq & st & Hg & Hr & -> & -> & ->).
    by apply parents_ok_snoc.
  - destruct (create_empty (pool w)) as [[[h p] l1]|] eqn:E; simplify_eq/=.
    apply create_empty_inv in E as (r & Hg & ->). by apply parents_ok_snoc.
  - destruct (handles w !! i) as [h|] eqn:Hi; simplify_eq/=.
    destruct (OwnerPtr_reset h (pool w)) as [[[h' p] l1]|] eqn:E; simplify_eq/=.
    apply OwnerPtr_reset_inv in E
      as [(Hs & -> & -> & ->)|(b & st & Hs & Hb & -> & -> & ->)].
    + by rewrite list_insert_id.
    + apply parents_ok_insert; [done|]. by intros [? ?].
  - destruct (handles w !! i) as [h|] eqn:Hi; simplify_eq/=.
    destruct (release h (pool w)) as [[[h' p] l1]|] eqn:E; simplify_eq/=.
    apply release_inv in E as (b & st & Hs & Hb & -> & -> & ->).
    apply parents_ok_insert; [done|]. by intros [? ?].
  - destruct (handles w !! i) as [h|] eqn:Hi; simplify_eq/=.
    apply parents_ok_snoc.
    + apply parents_ok_insert; [done|]. by intros [? ?].
    + simpl. intros Hs. by eapply Hpo.
  - destruct (handles w !! i) as [hi|] eqn:Hi; simplify_eq/=.
    destruct (handles w !! j) as [hj|] eqn:Hj; simplify_eq/=.
    destruct (decide (i = j)); simplify_eq/=; [done|].
    apply parents_ok_insert.
    + apply parents_ok_insert; [done|]. by intros [? ?].
    + simpl. intros Hs. by eapply Hpo.
  - destruct (handles w !! i) as [h|] eqn:Hi; simplify_eq/=.
    destruct (OwnerPtr_get h (pool w)) as [[[x p] l1]|] eqn:E; simplify_eq/=. done.
  - destruct (handles w !! i) as [h|] eqn:Hi; simplify_eq/=.
    destruct (OwnerPtr_set h d (pool w)) as [[[[] p] l1]|] eqn:E; simplify_eq/=. done.
  - destruct (handles w !! i) as [h|] eqn:Hi; simplify_eq/=.
    destruct (OwnerPtr_get_weak h (pool w)) as [[[x p] l1]|] eqn:E; simplify_eq/=. done.
  - unfold set_check_empty, modify in H. by simplify_eq/=.
Qed.

(** Everything an execution from the empty pool maintains. *)
Lemma run_sound ops : ∀ w w' l fl k,
  wf w fl → pool_sound (pool w) k → parents_ok (handles w) →
  run ops w = Some (w', l) →
  ∃ fl' k', wf w' fl' ∧ pool_sound (pool w') k' ∧ parents_ok (handles w').
Proof.
  induction ops as [|o ops IH]; intros w w' l fl k Hwf Hps Hpo; simpl.
  - intros [= <- <-]. eauto.
  - destruct (exec_op o w) as [[w1 l1]|] eqn:E1; simpl; [|done].
    destruct (run ops w1) as [[w2 l2]|] eqn:E2; simpl; [|done].
    intros [= <- <-].
    destruct (exec_op_step_ok _ _ _ _ _ Hwf E1) as [fl1 [Hwf1 _]].
    destruct (exec_op_pool_sound _ _ _ _ _ _ Hwf Hps E1) as [k1 Hps1].
    pose proof (exec_op_parents_ok _ _ _ _ Hpo E1) as Hpo1.
    by eapply IH.
Qed.

Lemma pool_sound_init : pool_sound (pool World_init) 0.
Proof. by split. Qed.

Lemma parents_ok_init : parents_ok (handles World_init).
Proof. intros i h Hi. by destruct i. Qed.

Lemma reachable_sound ops w l :
  run ops World_init = Some (w, l) →
  ∃ fl k, wf w fl ∧ pool_sound (pool w) k ∧ parents_ok (handles w).
Proof. apply (run_sound _ _ _ _ _ _ wf_init pool_sound_init parents_ok_init). Qed.

(** ** Further properties of the pool *)

Lemma chunk_bases_S k : chunk_bases (S k) = (CHUNK_SIZE * k)%nat :: chunk_bases k.
Proof. unfold chunk_bases. by rewrite seq_S, reverse_snoc. Qed.

Lemma destroy_loop_chunks k : ∀ fuel node (p : ObjectPool),
  chunk_list_is (heap p) node k → (k ≤ fuel)%nat →
  destroy_loop fuel node p = Some (tt, p, ev_delete_chunk <$> chunk_bases k).
Proof.
  induction k as [|k IH]; intros fuel node p; cbn [chunk_list_is].
  - intros -> _. by destruct fuel.
  - intros (-> & st & Hst & Hk) Hfuel. destruct fuel as [|fuel]; [lia|].
    cbn [destroy_loop].
    rewrite (mbind_Some _ _ _ _ _ _ (deref_Some p _ st Hst)). cbv beta iota.
    rewrite (mbind_Some _ _ p tt p
               [ev_delete_chunk (CHUNK_SIZE * k + (CHUNK_SIZE - 1) - (CHUNK_SIZE - 1))])
      by done.
    rewrite (IH fuel (next st) p Hk) by lia.
    rewrite chunk_bases_S. cbn [app fmap list_fmap]. do 4 f_equal. lia.
Qed.

(** X1.  In every pool grown from nothing the destructor terminates and
    deletes every chunk exactly once, newest first, whatever handles are
    still alive. *)
Theorem pool_destructor (ops : list op) (w : World) (l : list event) :
  run ops World_init = Some (w, l) →
  ∃ k,
    length (heap (pool w)) = (CHUNK_SIZE * k)%nat
    ∧ ObjectPool_destroy (pool w)
      = Some (tt, pool w,
              ev_load var_chunk_list memory_order_relaxed
              :: (ev_delete_chunk <$> chunk_bases k))
    ∧ NoDup (chunk_bases k)
    ∧ ∀ b, b ∈ chunk_bases k ↔ ∃ j, (j < k)%nat ∧ b = (CHUNK_SIZE * j)%nat.
Proof.
  intros Hrun. destruct (reachable_sound _ _ _ Hrun) as (fl & k & _ & [Hl _ Hk] & _).
  exists k. split; [done|]. split; [|split].
  - unfold ObjectPool_destroy.
    rewrite (mbind_Some _ _ (pool w) (chunk_list_ (pool w)) (pool w)
               [ev_load var_chunk_list memory_order_relaxed]) by done.
    rewrite (mbind_Some _ _ (pool w) (pool w) (pool w) []) by done.
    rewrite (destroy_loop_chunks k); [done|done|].
    rewrite Hl. unfold CHUNK_SIZE. lia.
  - unfold chunk_bases. apply NoDup_fmap_2.
    + intros x y. unfold CHUNK_SIZE. lia.
    + rewrite reverse_Permutation. apply NoDup_seq.
  - intros b. unfold chunk_bases. rewrite list_elem_of_fmap. split.
    + intros (j & -> & Hj). exists j. split; [|done].
      apply elem_of_reverse, elem_of_seq in Hj. lia.
    + intros (j & Hj & ->). exists j. split; [done|].
      apply elem_of_reverse, elem_of_seq. lia.
Qed.

(** X2.  In every pool grown from nothing the arena consists of whole
    chunks and [storage_count_] is its size in cells, in 32-bit
    arithmetic. *)
Theorem storage_count_tracks_arena (ops : list op) (w : World) (l : list event) :
  run ops World_init = Some (w, l) →
  (∃ k, length (heap (pool w)) = (CHUNK_SIZE * k)%nat)
  ∧ storage_count_ (pool w) = int32_wrap (Z.of_nat (length (heap (pool w))))
  ∧ ((Z.of_nat (length (heap (pool w))) ≤ INT32_MAX)%Z →
       storage_count_ (pool w) = Z.of_nat (length (heap (pool w)))).
Proof.
  intros Hrun. destruct (reachable_sound _ _ _ Hrun) as (fl & k & _ & [Hl Hc _] & _).
  split; [eauto|]. split; [done|]. intros Hle. rewrite Hc.
  apply int32_wrap_id. unfold INT32_MIN, INT32_MAX in *. lia.
Qed.

(** X3.  In every world reached from the empty pool no two variables hold
    the same slot, every held slot is allocated, and no held slot is on
    the free list; the free list itself is finite and without repetition. *)
Theorem single_owner (ops : list op) (w : World) (l : list event) :
  run ops World_init = Some (w, l) →
  (∀ i j hi hj a,
     handles w !! i = Some hi → handles w !! j = Some hj →
     storage_ hi = Some a → storage_ hj = Some a → i = j)
  ∧ ∃ fl,
      free_list_is (heap (pool w)) (head_ (pool w)) fl
      ∧ NoDup fl
      ∧ ∀ a, owns w a → (a ∉ fl) ∧ is_Some (heap (pool w) !! a).
Proof.
  intros Hrun. destruct (reachable_sound _ _ _ Hrun) as (fl & k & Hwf & _ & _).
  split; [apply Hwf|]. exists fl. split; [apply Hwf|]. split; [apply Hwf|].
  intros a Ha. destruct (wf_owned _ _ Hwf a Ha) as (Hlt & _ & Hnf).
  split; [done|]. by apply lookup_lt_is_Some.
Qed.

Lemma get_storage_defined w fl :
  wf w fl → ∃ r p' l, get_storage (pool w) = Some (r, p', l).
Proof.
  intros Hwf. pose proof (wf_free _ _ Hwf) as Hfl.
  destruct (head_ (pool w)) as [r|] eqn:Hh.
  - destruct (free_list_is_Some _ _ _ Hfl) as [fl' ->].
    destruct Hfl as (_ & st & Hst & _).
    rewrite (get_storage_pop _ _ _ Hh Hst). eauto.
  - rewrite (get_storage_empty _ Hh). eauto.
Qed.

Lemma get_storage_fresh w fl r p' l :
  wf w fl → get_storage (pool w) = Some (r, p', l) →
  (¬ owns w r)
  ∧ (∀ b, (b < length (heap (pool w)))%nat → heap p' !! b = heap (pool w) !! b).
Proof.
  intros Hwf [(Hh & -> & -> & _)|(st & Hh & Hr & -> & _)]%get_storage_inv.
  - split.
    + intros Ho. destruct (wf_owned _ _ Hwf _ Ho) as (Hlt & _). lia.
    + intros b Hb. wsimpl. by rewrite lookup_app_l.
  - split; [|done]. intros Ho. destruct (wf_owned _ _ Hwf _ Ho) as (_ & _ & Hnf).
    pose proof (wf_free _ _ Hwf) as Hfl. rewrite Hh in Hfl.
    destruct (free_list_is_Some _ _ _ Hfl) as [fl' ->]. apply Hnf. by left.
Qed.

Lemma create_defined w fl d :
  wf w fl →
  ∃ a p' l, create d (pool w) = Some (mkOwnerPtr (Some a) (Some this), p', l).
Proof.
  intros Hwf. destruct (get_storage_defined _ _ Hwf) as (r & q & lq & Hg).
  destruct (get_storage_allocated _ _ _ _ Hg) as [st Hst].
  unfold create. rewrite (mbind_Some _ _ _ _ _ _ Hg).
  rewrite (mbind_Some _ _ _ _ _ _ (Storage_init_data_Some q r st d Hst)).
  munfold. eauto.
Qed.

Lemma OwnerPtr_get_Some (p : ObjectPool) h a st :
  storage_ h = Some a → heap p !! a = Some st →
  OwnerPtr_get h p = Some (data st, p, []).
Proof.
  intros Hs Ha. unfold OwnerPtr_get, deref. rewrite Hs. munfold. by rewrite Ha.
Qed.

Lemma OwnerPtr_set_Some (p : ObjectPool) h a st d :
  storage_ h = Some a → heap p !! a = Some st →
  OwnerPtr_set h d p
  = Some (tt, set_heap (<[a := mkStorage d (next st) (generation st)]> (heap p)) p, []).
Proof.
  intros Hs Ha. unfold OwnerPtr_set, write_storage, deref. rewrite Hs. munfold.
  by rewrite Ha.
Qed.

(** X4.  In every world reached from the empty pool: creation, flag
    setting, [reset] and moves are always defined; [ObjectPool::release],
    dereference and [get_weak] are defined exactly on non-empty handles
    and have no defined result on empty ones. *)
Theorem statements_defined (ops : list op) (w : World) (l0 : list event) :
  run ops World_init = Some (w, l0) →
  (∀ d, is_Some (exec_op (op_create d) w))
  ∧ is_Some (exec_op op_create_empty w)
  ∧ (∀ flag, is_Some (exec_op (op_set_check_empty flag) w))
  ∧ ∀ i h, handles w !! i = Some h →
      is_Some (exec_op (op_reset i) w)
      ∧ is_Some (exec_op (op_move i) w)
      ∧ (∀ j, is_Some (handles w !! j) → is_Some (exec_op (op_move_assign i j) w))
      ∧ (is_Some (storage_ h) →
           is_Some (exec_op (op_release i) w)
           ∧ is_Some (exec_op (op_read i) w)
           ∧ (∀ d, is_Some (exec_op (op_write i d) w))
           ∧ is_Some (exec_op (op_get_weak i) w))
      ∧ (storage_ h = None →
           exec_op (op_release i) w = None
           ∧ exec_op (op_read i) w = None
           ∧ (∀ d, exec_op (op_write i d) w = None)
           ∧ exec_op (op_get_weak i) w = None).
Proof.
  intros Hrun. destruct (reachable_sound _ _ _ Hrun) as (fl & k & Hwf & _ & Hpo).
  split; [|split; [|split]].
  - intros d. destruct (create_defined _ _ d Hwf) as (a & p' & l & Hc).
    cbn [exec_op]. rewrite Hc. by eexists.
  - destruct (get_storage_defined _ _ Hwf) as (r & p' & l & Hg).
    cbn [exec_op]. unfold create_empty. rewrite (mbind_Some _ _ _ _ _ _ Hg). by eexists.
  - intros flag. by eexists.
  - intros i h Hi. split; [|split; [|split; [|split]]].
    + cbn [exec_op]. rewrite Hi. cbn [mbind option_bind].
      destruct (storage_ h) as [a|] eqn:Hs.
      * destruct (wf_owned _ _ Hwf a) as (Hlt & _); [by exists i, h|].
        destruct (lookup_lt_is_Some_2 _ _ Hlt) as [st Hst].
        rewrite (OwnerPtr_reset_Some _ h a this st Hs); [by eexists| |done].
        apply (Hpo i h Hi). by rewrite Hs.
      * rewrite (OwnerPtr_reset_empty _ _ Hs). by eexists.
    + cbn [exec_op]. rewrite Hi. by eexists.
    + intros j [hj Hj]. cbn [exec_op]. rewrite Hi, Hj. cbn [mbind option_bind].
      destruct (decide (i = j)); by eexists.
    + intros [a Hs].
      destruct (wf_owned _ _ Hwf a) as (Hlt & _); [by exists i, h|].
      destruct (lookup_lt_is_Some_2 _ _ Hlt) as [st Hst].
      split; [|split; [|split]]; [|  |intros d|]; cbn [exec_op]; rewrite Hi;
        cbn [mbind option_bind].
      * rewrite (release_Some _ _ _ _ Hs Hst). by eexists.
      * rewrite (OwnerPtr_get_Some _ _ _ _ Hs Hst). by eexists.
      * rewrite (OwnerPtr_set_Some _ _ _ _ d Hs Hst). by eexists.
      * rewrite (OwnerPtr_get_weak_Some _ _ _ _ Hs Hst). by eexists.
    + intros Hs.
      split; [|split; [|split]]; [|  |intros d|]; cbn [exec_op]; rewrite Hi;
        cbn [mbind option_bind].
      * by rewrite (release_None _ _ Hs).
      * unfold OwnerPtr_get, deref. rewrite Hs. done.
      * unfold OwnerPtr_set, deref. rewrite Hs. done.
      * unfold OwnerPtr_get_weak, load_generation, deref. rewrite Hs. done.
Qed.

(** X5.  In every world reached from the empty pool [create d] succeeds
    and returns a non-empty handle of this pool on a usable slot that no
    variable held; reading through the handle gives [d], and the cells
    held by the existing variables are as they were. *)
Theorem create_fresh (ops : list op) (w : World) (l0 : list event) (d : DataT) :
  run ops World_init = Some (w, l0) →
  ∃ a p' l,
    create d (pool w) = Some (mkOwnerPtr (Some a) (Some this), p', l)
    ∧ ¬ owns w a
    ∧ usable a
    ∧ OwnerPtr_get (mkOwnerPtr (Some a) (Some this)) p' = Some (d, p', [])
    ∧ ∀ b, owns w b → heap p' !! b = heap (pool w) !! b.
Proof.
  intros Hrun. destruct (reachable_sound _ _ _ Hrun) as (fl & k & Hwf & _ & _).
  destruct (create_defined _ _ d Hwf) as (a & p' & l & Hc).
  exists a, p', l. split; [done|].
  apply create_inv in Hc as (r & q & lq & st & Hg & Hr & [= <-] & -> & ->).
  destruct (get_storage_fresh _ _ _ _ _ Hwf Hg) as [Hno Hsame].
  split; [done|]. split; [by eapply get_storage_usable|]. split.
  - rewrite (OwnerPtr_get_Some _ _ a (mkStorage d (next st) (generation st))); [done|done|].
    wsimpl. apply list_lookup_insert_eq. by eapply lookup_lt_Some.
  - intros b Hb. wsimpl. rewrite list_lookup_insert_ne by (by intros ->).
    apply Hsame. by apply (wf_owned _ _ Hwf).
Qed.


(** X7.  The free list is a stack: the slot just retired is the next one
    handed out, without any allocation, and taking it puts the head of the
    free list, the counters and every other cell back as they were;
    the slot itself comes back cleared and with its generation
    incremented. *)
Theorem release_then_get_storage (p : ObjectPool) (h : OwnerPtr) (a : nat)
    (st : Storage) :
  storage_ h = Some a → heap p !! a = Some st →
  ∃ h' p1 l1 p2 l2,
    release h p = Some (h', p1, l1)
    ∧ get_storage p1 = Some (a, p2, l2)
    ∧ head_ p2 = head_ p
    ∧ storage_count_ p2 = storage_count_ p
    ∧ chunk_list_ p2 = chunk_list_ p
    ∧ length (heap p2) = length (heap p)
    ∧ heap p2 !! a = Some (retired_cell st (head_ p))
    ∧ (∀ b, b ≠ a → heap p2 !! b = heap p !! b)
    ∧ (∀ base, ev_new_chunk base ∉ l2).
Proof.
  intros Hs Ha. rewrite (release_Some _ _ _ _ Hs Ha).
  assert (Hl : (<[a := retired_cell st (head_ p)]> (heap p)) !! a
               = Some (retired_cell st (head_ p))).
  { apply list_lookup_insert_eq. by eapply lookup_lt_Some. }
  eexists _, _, _, _, _. split; [reflexivity|]. split.
  { by apply (get_storage_pop _ a (retired_cell st (head_ p))). }
  wsimpl. split; [done|]. split; [done|]. split; [done|].
  split; [by rewrite length_insert|]. split; [done|]. split.
  - intros b Hb. by rewrite list_lookup_insert_ne.
  - intros base. unfold pop_log. rewrite !not_elem_of_cons, elem_of_nil. naive_solver.
Qed.

(** X8.  [is_alive_unsafe] gives the same answer as [is_alive] in every
    pool state and is defined exactly when [is_alive] is; neither changes
    the pool, and the only difference is that [is_alive_unsafe] issues no
    fence. *)
Theorem is_alive_unsafe_agrees (wk : WeakPtr) (p : ObjectPool) :
  (∀ b, (∃ l, is_alive wk p = Some (b, p, l))
        ↔ (∃ l, is_alive_unsafe wk p = Some (b, p, l)))
  ∧ (is_alive wk p = None ↔ is_alive_unsafe wk p = None)
  ∧ (∀ b p' l, is_alive wk p = Some (b, p', l) → p' = p)
  ∧ (∀ b p' l, is_alive_unsafe wk p = Some (b, p', l) →
       p' = p ∧ ∀ mo, ev_fence mo ∉ l).
Proof.
  destruct (weak_storage_ wk) as [a|] eqn:Hw.
  - destruct (heap p !! a) as [st|] eqn:Ha.
    + rewrite (is_alive_Some wk p a st Hw Ha), (is_alive_unsafe_Some wk p a st Hw Ha).
      split; [|split; [|split]].
      * intros b. split; intros [l H]; injection H as Hb _; rewrite <- Hb; eauto.
      * done.
      * intros b p' l H. by injection H.
      * intros b p' l H. injection H as _ Hp Hl. split; [done|]. intros mo.
        rewrite <- Hl, not_elem_of_cons, elem_of_nil. split; [done|tauto].
    + unfold is_alive, is_alive_unsafe, load_generation, deref. rewrite Hw.
      munfold. rewrite Ha. simpl.
      split; [|split; [|split]]; [|done|done|done].
      intros b. split; intros [l H]; discriminate H.
  - unfold is_alive, is_alive_unsafe. rewrite Hw.
    split; [|split; [|split]].
    + intros b. split; intros [l H]; injection H as Hb _; rewrite <- Hb; eauto.
    + done.
    + intros b p' l H. by injection H.
    + intros b p' l H. injection H as _ Hp Hl. split; [done|]. intros mo.
      rewrite <- Hl. apply not_elem_of_nil.
Qed.

(** X9.  A handle minted by [get_weak] is non-empty, refers to the owner's
    slot, carries the generation [generation()] reports, is alive right
    away, and dereferences to the element the owner dereferences to;
    minting changes nothing in the pool. *)
Theorem get_weak_alive (h : OwnerPtr) (p p' : ObjectPool) (wk : WeakPtr)
    (l : list event) :
  OwnerPtr_get_weak h p = Some (wk, p', l) →
  p' = p
  ∧ WeakPtr_empty wk = false
  ∧ weak_storage_ wk = storage_ h
  ∧ OwnerPtr_generation h p = Some (weak_generation_ wk, p, l)
  ∧ (∃ la, is_alive wk p = Some (true, p, la))
  ∧ ∃ d, OwnerPtr_get h p = Some (d, p, []) ∧ WeakPtr_get wk p = Some (d, p, []).
Proof.
  intros (a & st & Hs & Ha & -> & -> & ->)%OwnerPtr_get_weak_inv.
  split; [done|]. split; [done|]. split; [by rewrite Hs|]. split; [|split].
  - unfold OwnerPtr_generation, load_generation, deref. rewrite Hs. munfold.
    by rewrite Ha.
  - eexists. rewrite (is_alive_Some (mkWeakPtr (generation st) (Some a)) p a st eq_refl Ha).
    by rewrite bool_decide_true.
  - exists (data st). split; [by apply (OwnerPtr_get_Some _ _ a)|].
    unfold WeakPtr_get, deref. munfold. by rewrite Ha.
Qed.

(** X10.  [allocate_chunk] publishes onto whatever the free list holds:
    the new free list is cells 1..62 of the new chunk followed by the old
    free list, in order, and no existing cell is changed. *)
Theorem allocate_chunk_prepends (p : ObjectPool) (fl : list nat) :
  free_list_is (heap p) (head_ p) fl →
  ∃ p' l,
    allocate_chunk p = Some (length (heap p), p', l)
    ∧ free_list_is (heap p') (head_ p') (seq (length (heap p) + 1) 62 ++ fl)
    ∧ length (heap p') = (length (heap p) + CHUNK_SIZE)%nat
    ∧ (∀ a st, heap p !! a = Some st → heap p' !! a = Some st)
    ∧ (length (heap p) ∉ seq (length (heap p) + 1) 62 ++ fl)
    ∧ ((length (heap p) + 63)%nat ∉ seq (length (heap p) + 1) 62 ++ fl).
Proof.
  intros Hfl. rewrite allocate_chunk_spec. eexists _, _. split; [reflexivity|].
  unfold allocate_chunk_pool. wsimpl.
  assert (Hold : ∀ a, a ∈ fl → (a < length (heap p))%nat).
  { intros a. by eapply free_list_is_bounds. }
  split; [|split; [|split; [|split]]].
  - exact (free_list_is_chunk (heap p) (head_ p) (chunk_list_ p) fl 61 Hfl ltac:(lia)).
  - by rewrite length_app, chunk_cells_length.
  - intros a st Ha. by apply lookup_app_l_Some.
  - rewrite elem_of_app, elem_of_seq. intros [?|Hin]; [lia|]. apply Hold in Hin. lia.
  - rewrite elem_of_app, elem_of_seq. intros [?|Hin]; [lia|]. apply Hold in Hin. lia.
Qed.

Lemma run_create_empty_handles n : ∀ w w' l,
  run (replicate n op_create_empty) w = Some (w', l) →
  length (handles w') = (length (handles w) + n)%nat.
Proof.
  induction n as [|n IH]; intros w w' l; cbn [replicate run].
  - intros [= <- _]. lia.
  - cbn [exec_op].
    destruct (create_empty (pool w)) as [[[h p] l1]|] eqn:E; cbn [mbind option_bind]; [|done].
    destruct (run (replicate n op_create_empty) _) as [[w2 l2]|] eqn:E2;
      cbn [mbind option_bind]; [|done].
    intros [= <- _]. apply IH in E2. cbn [handles] in E2.
    rewrite length_app in E2. cbn [length] in E2. lia.
Qed.

Lemma fill_chunk_grow w :
  head_ (pool w) = None →
  ∃ w' l,
    run (replicate 63 op_create_empty) w = Some (w', l)
    ∧ head_ (pool w') = None
    ∧ length (heap (pool w')) = (length (heap (pool w)) + CHUNK_SIZE)%nat.
Proof.
  intros Hh. change 63%nat with (S 62). rewrite replicate_S.
  set (rest := replicate 62 op_create_empty).
  cbn [run exec_op].
  unfold create_empty. rewrite (mbind_Some _ _ _ _ _ _ (get_storage_empty _ Hh)).
  cbn [mret M_ret mbind option_bind].
  set (w1 := mkWorld _ _).
  assert (Hfl : free_list_is (heap (pool w1)) (head_ (pool w1))
                             (seq (length (heap (pool w)) + 1) 62)).
  { unfold w1. wsimpl. rewrite Hh.
    pose proof (free_list_is_chunk (heap (pool w)) None (chunk_list_ (pool w)) [] 61
                  eq_refl ltac:(lia)) as H.
    by rewrite app_nil_r in H. }
  destruct (drain_run _ w1 Hfl) as (w' & l & Hrun & Hh' & _ & Hheap).
  rewrite length_seq in Hrun. subst rest. rewrite Hrun. cbn [mbind option_bind].
  eexists _, _. split; [reflexivity|]. split; [done|]. rewrite Hheap.
  unfold w1. wsimpl. by rewrite length_app, chunk_cells_length.
Qed.

Lemma fill_chunks_grow n : ∀ w,
  head_ (pool w) = None →
  ∃ w' l,
    run (fill_chunks n) w = Some (w', l)
    ∧ head_ (pool w') = None
    ∧ length (heap (pool w')) = (length (heap (pool w)) + CHUNK_SIZE * n)%nat.
Proof.
  unfold fill_chunks. induction n as [|n IH]; intros w Hh.
  - exists w, []. split; [done|]. split; [done|]. lia.
  - replace (63 * S n)%nat with (63 * n + 63)%nat by lia. rewrite replicate_add.
    destruct (IH w Hh) as (w1 & l1 & Hrun1 & Hh1 & Hl1).
    destruct (fill_chunk_grow w1 Hh1) as (w2 & l2 & Hrun2 & Hh2 & Hl2).
    exists w2, (l1 ++ l2). split; [by eapply run_app|]. split; [done|]. lia.
Qed.

(** X11.  Chunk growth: a chunk serves exactly 63 creations.  For every
    [n], 63 n creations on a fresh pool succeed, leave 63 n handles, an
    arena of exactly [n] chunks and an empty free list, so that the next
    [get_storage] allocates chunk [n] and returns its first cell. *)
Theorem chunk_growth (n : nat) :
  ∃ w l,
    run (fill_chunks n) World_init = Some (w, l)
    ∧ head_ (pool w) = None
    ∧ length (heap (pool w)) = (CHUNK_SIZE * n)%nat
    ∧ length (handles w) = (63 * n)%nat
    ∧ ∃ p' l', get_storage (pool w) = Some ((CHUNK_SIZE * n)%nat, p', l')
               ∧ length (heap p') = (CHUNK_SIZE * S n)%nat
               ∧ ev_new_chunk (CHUNK_SIZE * n) ∈ l'.
Proof.
  destruct (fill_chunks_grow n World_init eq_refl) as (w & l & Hrun & Hh & Hl).
  cbn [World_init pool heap ObjectPool_default length] in Hl.
  rewrite Nat.add_0_l in Hl.
  exists w, l. split; [done|]. split; [done|]. split; [done|]. split.
  - apply run_create_empty_handles in Hrun. cbn [World_init handles length] in Hrun. lia.
  - rewrite (get_storage_empty _ Hh), Hl. eexists _, _. split; [reflexivity|]. split.
    + unfold allocate_chunk_pool. wsimpl. rewrite length_app, chunk_cells_length, Hl.
      unfold CHUNK_SIZE. lia.
    + unfold allocate_chunk_log. rewrite !elem_of_cons. auto.
Qed.

(** X12.  In every world reached from the empty pool, a statement that
    does not write or retire through variable [k] leaves the cell held by
    [k] (payload, generation and link) exactly as it was: creations,
    retirements and writes through other handles never disturb it. *)
Theorem other_handles_untouched (ops : list op) (w w' : World) (l0 l : list event)
    (o : op) (k a : nat) (h : OwnerPtr) :
  run ops World_init = Some (w, l0) →
  exec_op o w = Some (w', l) →
  handles w !! k = Some h → storage_ h = Some a →
  ¬ acts_on o k →
  heap (pool w') !! a = heap (pool w) !! a.
Proof.
  intros Hrun Hexec Hk Hs Hact.
  destruct (reachable_sound _ _ _ Hrun) as (fl & n & Hwf & _ & _).
  assert (Ho : owns w a) by (by exists k, h).
  destruct (wf_owned _ _ Hwf a Ho) as (Hlt & _ & _).
  assert (Hother : ∀ i hi b, handles w !! i = Some hi → storage_ hi = Some b →
                             i ≠ k → b ≠ a).
  { intros i hi b Hi Hsi Hne ->. apply Hne. by apply (wf_unique _ _ Hwf i k hi h a). }
  destruct o as [d| |i|i|i|i j|i|i d|i|flag]; simpl in Hexec, Hact.
  - destruct (create d (pool w)) as [[[h1 p] l1]|] eqn:E; simplify_eq/=.
    apply create_inv in E as (r & q & lq & st & Hg & Hr & -> & -> & ->).
    destruct (get_storage_fresh _ _ _ _ _ Hwf Hg) as [Hno Hsame].
    wsimpl. rewrite list_lookup_insert_ne by (by intros ->). by apply Hsame.
  - destruct (create_empty (pool w)) as [[[h1 p] l1]|] eqn:E; simplify_eq/=.
    apply create_empty_inv in E as (r & Hg & ->).
    destruct (get_storage_fresh _ _ _ _ _ Hwf Hg) as [_ Hsame]. by apply Hsame.
  - destruct (handles w !! i) as [hi|] eqn:Hi; simplify_eq/=.
    destruct (OwnerPtr_reset hi (pool w)) as [[[h1 p] l1]|] eqn:E; simplify_eq/=.
    apply OwnerPtr_reset_inv in E
      as [(Hsi & -> & -> & ->)|(b & st & Hsi & Hb & -> & -> & ->)]; [done|].
    wsimpl. apply list_lookup_insert_ne. exact (Hother i hi b Hi Hsi Hact).
  - destruct (handles w !! i) as [hi|] eqn:Hi; simplify_eq/=.
    destruct (release hi (pool w)) as [[[h1 p] l1]|] eqn:E; simplify_eq/=.
    apply release_inv in E as (b & st & Hsi & Hb & -> & -> & ->).
    wsimpl. apply list_lookup_insert_ne. exact (Hother i hi b Hi Hsi Hact).
  - destruct (handles w !! i) as [hi|] eqn:Hi; simplify_eq/=. done.
  - destruct (handles w !! i) as [hi|] eqn:Hi; simplify_eq/=.
    destruct (handles w !! j) as [hj|] eqn:Hj; simplify_eq/=.
    destruct (decide (i = j)); simplify_eq/=; done.
  - destruct (handles w !! i) as [hi|] eqn:Hi; simplify_eq/=.
    destruct (OwnerPtr_get hi (pool w)) as [[[x p] l1]|] eqn:E; simplify_eq/=.
    by apply OwnerPtr_get_inv in E as [-> ->].
  - destruct (handles w !! i) as [hi|] eqn:Hi; simplify_eq/=.
    destruct (OwnerPtr_set hi d (pool w)) as [[[[] p] l1]|] eqn:E; simplify_eq/=.
    apply OwnerPtr_set_inv in E as (b & st & Hsi & Hb & -> & ->).
    wsimpl. apply list_lookup_insert_ne. exact (Hother i hi b Hi Hsi Hact).
  - destruct (handles w !! i) as [hi|] eqn:Hi; simplify_eq/=.
    destruct (OwnerPtr_get_weak hi (pool w)) as [[[x p] l1]|] eqn:E; simplify_eq/=.
    by apply OwnerPtr_get_weak_inv in E as (b & st & Hsi & Hb & -> & -> & ->).
  - unfold set_check_empty, modify in Hexec. by simplify_eq/=.
Qed.

Lemma WeakPtr_get_Some (wk : WeakPtr) (p : ObjectPool) a st :
  weak_storage_ wk = Some a → heap p !! a = Some st →
  WeakPtr_get wk p = Some (data st, p, []).
Proof.
  intros Hw Ha. unfold WeakPtr_get, deref. rewrite Hw. munfold. by rewrite Ha.
Qed.

Lemma int32_wrap_succ_ne g : int32_wrap (g + 1) ≠ g.
Proof. unfold int32_wrap. euclid (g + 1 + 2147483648)%Z. lia. Qed.

(** X13.  A retired slot stays addressable: after [release], a weak
    handle minted before the retirement still dereferences, to the
    payload as [clear()] left it, and [is_alive] and [is_alive_unsafe]
    report it stale. *)
Theorem stale_weak_read (p : ObjectPool) (h : OwnerPtr) (a : nat) (st : Storage) :
  storage_ h = Some a → heap p !! a = Some st →
  ∃ wk lw h' p' l,
    OwnerPtr_get_weak h p = Some (wk, p, lw)
    ∧ release h p = Some (h', p', l)
    ∧ WeakPtr_get wk p' = Some (DataT_clear (data st), p', [])
    ∧ (∃ la, is_alive wk p' = Some (false, p', la))
    ∧ (∃ la, is_alive_unsafe wk p' = Some (false, p', la)).
Proof.
  intros Hs Ha.
  rewrite (OwnerPtr_get_weak_Some _ _ _ _ Hs Ha), (release_Some _ _ _ _ Hs Ha).
  eexists _, _, _, _, _. split; [reflexivity|]. split; [reflexivity|].
  set (p' := set_head _ _).
  assert (Hcell : heap p' !! a = Some (retired_cell st (head_ p))).
  { unfold p'. wsimpl. apply list_lookup_insert_eq. by eapply lookup_lt_Some. }
  split; [|split].
  - exact (WeakPtr_get_Some (mkWeakPtr (generation st) (Some a)) p' a _ eq_refl Hcell).
  - eexists. rewrite (is_alive_Some (mkWeakPtr (generation st) (Some a)) p' a _ eq_refl Hcell).
    rewrite bool_decide_false; [done|]. simpl. intros Heq. symmetry in Heq.
    by apply int32_wrap_succ_ne in Heq.
  - eexists.
    rewrite (is_alive_unsafe_Some (mkWeakPtr (generation st) (Some a)) p' a _ eq_refl Hcell).
    rewrite bool_decide_false; [done|]. simpl. intros Heq. symmetry in Heq.
    by apply int32_wrap_succ_ne in Heq.
Qed.

(** X14.  Move construction transfers custody: the new variable holds the
    source's slot and pool, the source is empty, the pool is untouched and
    nothing is logged; what the source dereferenced to is what the new
    handle dereferences to, and resetting (or destroying) the moved-from
    source afterwards retires nothing. *)
Theorem move_transfers (w : World) (i : nat) (h : OwnerPtr) :
  handles w !! i = Some h →
  ∃ w1,
    exec_op (op_move i) w = Some (w1, [])
    ∧ pool w1 = pool w
    ∧ handles w1 !! i = Some (mkOwnerPtr None None)
    ∧ handles w1 !! length (handles w) = Some (mkOwnerPtr (storage_ h) (parent_ h))
    ∧ OwnerPtr_get (mkOwnerPtr (storage_ h) (parent_ h)) (pool w1)
      = OwnerPtr_get h (pool w)
    ∧ exec_op (op_reset i) w1 = Some (w1, []).
Proof.
  intros Hi. pose proof (lookup_lt_Some _ _ _ Hi) as Hlt.
  eexists. split; [cbn [exec_op]; by rewrite Hi|].
  split; [done|]. cbn [handles pool].
  assert (Hi1 : (<[i := mkOwnerPtr None None]> (handles w)
                 ++ [mkOwnerPtr (storage_ h) (parent_ h)]) !! i
                = Some (mkOwnerPtr None None)).
  { rewrite lookup_app_l by (by rewrite length_insert).
    by apply list_lookup_insert_eq. }
  split; [done|]. split; [|split].
  - rewrite lookup_app_r by (by rewrite length_insert).
    by rewrite length_insert, Nat.sub_diag.
  - done.
  - cbn [exec_op handles pool]. rewrite Hi1. cbn [mbind option_bind].
    rewrite OwnerPtr_reset_empty by done. cbn [mbind option_bind].
    by rewrite list_insert_id.
Qed.

Lemma is_alive_dangling (wk : WeakPtr) (p : ObjectPool) a :
  weak_storage_ wk = Some a → heap p !! a = None → is_alive wk p = None.
Proof.
  intros Hw Ha. unfold is_alive, load_generation, deref. rewrite Hw.
  munfold. by rewrite Ha.
Qed.

(** X15.  Writing through the owner and reading back: [*h = d] followed
    by [*h] gives [d]; the write logs nothing, touches no other cell,
    keeps the free list, the counter and the chunk list, and keeps the
    slot's generation, so every weak handle answers [is_alive] as
    before. *)
Theorem write_then_read (p : ObjectPool) (h : OwnerPtr) (a : nat) (st : Storage)
    (d : DataT) :
  storage_ h = Some a → heap p !! a = Some st →
  ∃ p',
    OwnerPtr_set h d p = Some (tt, p', [])
    ∧ OwnerPtr_get h p' = Some (d, p', [])
    ∧ heap p' !! a = Some (mkStorage d (next st) (generation st))
    ∧ (∀ b, b ≠ a → heap p' !! b = heap p !! b)
    ∧ head_ p' = head_ p ∧ storage_count_ p' = storage_count_ p
    ∧ chunk_list_ p' = chunk_list_ p
    ∧ ∀ wk b, (∃ l, is_alive wk p' = Some (b, p', l))
              ↔ (∃ l, is_alive wk p = Some (b, p, l)).
Proof.
  intros Hs Ha. rewrite (OwnerPtr_set_Some _ _ _ _ d Hs Ha).
  set (cell := mkStorage d (next st) (generation st)).
  set (p' := set_heap _ p).
  assert (Hcell : heap p' !! a = Some cell).
  { apply list_lookup_insert_eq. by eapply lookup_lt_Some. }
  assert (Hother : ∀ b, b ≠ a → heap p' !! b = heap p !! b).
  { intros b Hb. unfold p'. wsimpl. by rewrite list_lookup_insert_ne. }
  exists p'. split; [done|]. split; [exact (OwnerPtr_get_Some p' h a cell Hs Hcell)|].
  split; [done|]. split; [done|]. split; [done|]. split; [done|]. split; [done|].
  intros wk b. destruct (weak_storage_ wk) as [c|] eqn:Hw.
  - destruct (heap p !! c) as [stc|] eqn:Hc.
    + assert (Hc' : ∃ stc', heap p' !! c = Some stc' ∧ generation stc' = generation stc).
      { destruct (decide (c = a)) as [->|Hne].
        - exists cell. split; [done|]. by simplify_eq.
        - exists stc. by rewrite (Hother c Hne). }
      destruct Hc' as (stc' & Hc' & Hg).
      rewrite (is_alive_Some wk p' c stc' Hw Hc'), (is_alive_Some wk p c stc Hw Hc), Hg.
      split; intros [l [= <-]]; eauto.
    + assert (Hc' : heap p' !! c = None).
      { rewrite Hother; [done|]. intros ->. congruence. }
      rewrite (is_alive_dangling wk p' c Hw Hc'), (is_alive_dangling wk p c Hw Hc).
      split; intros [l ?]; done.
  - unfold is_alive. rewrite Hw. split; intros [l [= <-]]; eauto.
Qed.

(** X16.  [create_empty] does not construct: on a recycled slot it hands
    out the payload as the previous element's [clear()] left it, where
    [create d] on the same pool overwrites it with [d]; both return the
    slot just retired, with the generation the retirement gave it. *)
Theorem create_empty_recycles (p : ObjectPool) (h : OwnerPtr) (a : nat) (st : Storage)
    (d : DataT) :
  storage_ h = Some a → heap p !! a = Some st →
  ∃ h' p1 l1 p2 l2 p3 l3,
    release h p = Some (h', p1, l1)
    ∧ create_empty p1 = Some (mkOwnerPtr (Some a) (Some this), p2, l2)
    ∧ OwnerPtr_get (mkOwnerPtr (Some a) (Some this)) p2
      = Some (DataT_clear (data st), p2, [])
    ∧ create d p1 = Some (mkOwnerPtr (Some a) (Some this), p3, l3)
    ∧ OwnerPtr_get (mkOwnerPtr (Some a) (Some this)) p3 = Some (d, p3, [])
    ∧ gen_of p2 a = int32_wrap (generation st + 1)
    ∧ gen_of p3 a = int32_wrap (generation st + 1)
    ∧ (∀ e, e ∈ l2 → e ≠ ev_init_data a)
    ∧ ev_init_data a ∈ l3.
Proof.
  intros Hs Ha. rewrite (release_Some _ _ _ _ Hs Ha).
  set (p1 := set_head _ _).
  set (c1 := retired_cell st (head_ p)).
  assert (Hh1 : head_ p1 = Some a) by done.
  assert (Hc1 : heap p1 !! a = Some c1).
  { unfold p1. wsimpl. apply list_lookup_insert_eq. by eapply lookup_lt_Some. }
  set (p2 := set_head (next c1) p1).
  set (c3 := mkStorage d (next c1) (generation c1)).
  set (p3 := set_heap (<[a := c3]> (heap p1)) (set_head (next c1) p1)).
  assert (Hc3 : heap p3 !! a = Some c3).
  { unfold p3. wsimpl. apply list_lookup_insert_eq. by eapply lookup_lt_Some. }
  eexists _, p1, _, p2, _, p3, _. split; [reflexivity|].
  split.
  { unfold create_empty. rewrite (mbind_Some _ _ _ _ _ _ (get_storage_pop _ _ _ Hh1 Hc1)).
    reflexivity. }
  split.
  { exact (OwnerPtr_get_Some p2 (mkOwnerPtr (Some a) (Some this)) a c1 eq_refl Hc1). }
  split; [exact (create_pop p1 d a c1 Hh1 Hc1)|].
  split.
  { exact (OwnerPtr_get_Some p3 (mkOwnerPtr (Some a) (Some this)) a c3 eq_refl Hc3). }
  split; [exact (gen_of_cell p2 a c1 Hc1)|].
  split; [exact (gen_of_cell p3 a c3 Hc3)|].
  split.
  - intros e. rewrite app_nil_r. unfold pop_log. rewrite !elem_of_cons, elem_of_nil.
    intros [->|[->|[->|[]]]]; done.
  - rewrite elem_of_app, elem_of_cons. auto.
Qed.

End Pool.

(** ** A concrete payload: integers, cleared to zero *)

Definition Z_clear (d : Z) : Z := 0%Z.
Definition pool_id : nat := 0.

Definition exec_ops (ops : list (@op Z)) (w : @World Z) : option (@World Z * list event) :=
  run 0%Z Z_clear pool_id ops w.

(** The world an execution ends in, and the log it writes. *)
Definition world_from (ops : list (@op Z)) (w : @World Z) : @World Z :=
  match exec_ops ops w with
  | Some (w', _) => w'
  | None => w
  end.

Definition log_from (ops : list (@op Z)) (w : @World Z) : list event :=
  match exec_ops ops w with
  | Some (_, l) => l
  | None => []
  end.

Definition world_after (ops : list (@op Z)) : @World Z := world_from ops (@World_init Z).
Definition log_after (ops : list (@op Z)) : list event := log_from ops (@World_init Z).

(** After [auto h = pool.create(5)] on a fresh pool: [h] holds slot 0 and
    slots 1..62 of the first chunk are on the free list. *)
Definition pool_one : @ObjectPool Z := pool (world_after [op_create 5%Z]).
Definition handle_one : OwnerPtr := mkOwnerPtr (Some 0) (Some pool_id).

Definition exec_one (o : @op Z) (w : @World Z) : option (@World Z * list event) :=
  exec_op 0%Z Z_clear pool_id o w.


(** After [auto a = pool.create(5); auto b = pool.create(6)]: [a] holds
    slot 0 and [b] holds slot 1. *)
Definition world_two : @World Z := world_after [op_create 5%Z; op_create 6%Z].

(** ** Witnesses and counterexamples *)

Lemma release_order_witness :
  ∃ p' l, release Z_clear handle_one pool_one = Some (mkOwnerPtr None (Some pool_id), p', l)
          ∧ occurs_before (ev_fetch_add (var_generation 0) 1 memory_order_relaxed)
                          (ev_clear_data 0) l.
Proof.
  destruct (release_order Z_clear pool_one handle_one 0 (mkStorage 5%Z None 1%Z))
    as (p' & l & Hr & Hl & H1 & H2 & H3 & _); [reflexivity | reflexivity |].
  exists p', l. split; [exact Hr|]. subst l.
  exists 0%nat, 2%nat. repeat split; lia.
Defined.

(** C1, as stated, fails: on the pool holding one element, [release] logs
    the generation increment before the payload's [clear()], not after. *)
Lemma release_order_counterexample :
  ∃ h' p' l,
    release Z_clear handle_one pool_one = Some (h', p', l)
    ∧ ¬ occurs_before (ev_clear_data 0)
                      (ev_fetch_add (var_generation 0) 1 memory_order_relaxed) l.
Proof.
  eexists _, _, _. split; [vm_compute; reflexivity|].
  intros (i & j & Hi & Hj & Hlt). vm_compute in Hi, Hj.
  injection Hi as <-. injection Hj as <-. lia.
Qed.

Lemma is_alive_spec_witness :
  is_alive (mkWeakPtr (-1) None) pool_one = Some (false, pool_one, [])
  ∧ ∃ b l, is_alive (mkWeakPtr 1 (Some 0)) pool_one = Some (b, pool_one, l)
           ∧ (b = true ↔ 1%Z = 1%Z).
Proof.
  split.
  - apply (is_alive_spec (mkWeakPtr (-1) None) pool_one). reflexivity.
  - apply (is_alive_spec (mkWeakPtr 1 (Some 0)) pool_one) with (a := 0%nat)
                                                           (st := mkStorage 5%Z None 1%Z);
      reflexivity.
Defined.

Lemma retire_empty_handle_witness :
  OwnerPtr_reset Z_clear OwnerPtr_default pool_one = Some (OwnerPtr_default, pool_one, [])
  ∧ OwnerPtr_destroy Z_clear OwnerPtr_default pool_one
    = Some (OwnerPtr_default, pool_one, [])
  ∧ release Z_clear OwnerPtr_default pool_one = None.
Proof. apply (retire_empty_handle Z_clear pool_one OwnerPtr_default). reflexivity. Defined.

(** C5, as stated, fails for [ObjectPool::release]: handed an empty handle
    it does not return with the pool unchanged, it has no result at all. *)
Lemma retire_empty_handle_counterexample :
  storage_ OwnerPtr_default = None
  ∧ ¬ ∃ h', release Z_clear OwnerPtr_default pool_one = Some (h', pool_one, []).
Proof. split; [reflexivity|]. intros [h' H]. vm_compute in H. discriminate H. Qed.

Lemma generation_step_witness :
  ∃ st', heap (pool (world_after [op_create 5%Z; op_reset 0%nat])) !! 0%nat = Some st'
         ∧ generation st' = 2%Z.
Proof.
  destruct (generation_step 0%Z Z_clear pool_id (op_reset 0%nat)
              (world_after [op_create 5%Z])
              (world_after [op_create 5%Z; op_reset 0%nat])
              (destroy_data_log 0 ++ release_storage_log) 0%nat)
    as [_ Hstep]; [vm_compute; reflexivity|].
  destruct (Hstep (mkStorage 5%Z None 1%Z) eq_refl) as (st' & Hst' & Hret & _).
  exists st'. split; [exact Hst'|].
  destruct (Hret eq_refl) as (_ & Hplus & _).
  apply Hplus. unfold INT32_MIN, INT32_MAX. simpl. lia.
Defined.

(** C3, as stated, fails at the top of the counter: after 2^31 - 2
    retirements slot 0 carries generation 2^31 - 1, and retiring it once
    more leaves -2^31 instead of one more. *)
Lemma generation_step_counterexample :
  ∃ w l w' l' st st',
    exec_ops (recycle 5%Z 5%Z (Z.to_nat 2147483645)) (@World_init Z) = Some (w, l)
    ∧ exec_one (op_reset (S (Z.to_nat 2147483645))) w = Some (w', l')
    ∧ retired_by (op_reset (S (Z.to_nat 2147483645))) w = Some 0%nat
    ∧ heap (pool w) !! 0%nat = Some st
    ∧ heap (pool w') !! 0%nat = Some st'
    ∧ generation st = 2147483647%Z
    ∧ generation st' = (-2147483648)%Z
    ∧ generation st' ≠ (generation st + 1)%Z.
Proof.
  assert (Hm : ∃ m, m = Z.to_nat 2147483645 ∧ Z.of_nat m = 2147483645%Z).
  { eexists. split; [reflexivity|]. by rewrite Z2Nat.id. }
  destruct Hm as (m & <- & Hm).
  destruct (recycle_run 0%Z Z_clear pool_id 5%Z 5%Z m) as (w & l & st & Hrun & _ & Hh & Hst & Hgen).
  rewrite Hm in Hgen. change (int32_wrap (2 + 2147483645)) with 2147483647%Z in Hgen.
  assert (Hreset : exec_one (op_reset (S m)) w
                   = Some (mkWorld (set_head (Some 0%nat)
                                      (set_heap (<[0%nat := retired_cell Z_clear st (head_ (pool w))]>
                                                   (heap (pool w))) (pool w)))
                                   (<[S m := mkOwnerPtr None (Some pool_id)]> (handles w)),
                           destroy_data_log 0 ++ release_storage_log)).
  { unfold exec_one. cbn [exec_op]. rewrite Hh. cbn [mbind option_bind].
    by rewrite (OwnerPtr_reset_Some Z_clear (pool w) (mkOwnerPtr (Some 0%nat) (Some pool_id))
                  0%nat pool_id st eq_refl eq_refl Hst). }
  eexists w, l, _, _, st, _.
  split; [exact Hrun|]. split; [exact Hreset|]. split.
  { cbn [retired_by]. by rewrite Hh. }
  split; [exact Hst|]. split.
  { cbn [pool heap set_head set_heap]. apply list_lookup_insert_eq. by eapply lookup_lt_Some. }
  split; [exact Hgen|]. cbn [generation retired_cell]. rewrite Hgen. split; [reflexivity|done].
Qed.

Lemma weak_handle_staleness_witness :
  (∃ la, is_alive (mkWeakPtr 1 (Some 0%nat))
                  (pool (world_after [op_create 5%Z; op_reset 0%nat]))
         = Some (false, pool (world_after [op_create 5%Z; op_reset 0%nat]), la))
  ∧ ∃ la, is_alive (mkWeakPtr 1 (Some 0%nat))
                   (pool (world_after [op_create 5%Z; op_reset 0%nat; op_create 7%Z]))
          = Some (false, pool (world_after [op_create 5%Z; op_reset 0%nat; op_create 7%Z]),
                  la).
Proof.
  destruct (weak_handle_staleness 0%Z Z_clear pool_id [] (@World_init Z)
              (world_after [op_create 5%Z]) [] (log_after [op_create 5%Z]) 5%Z)
    as (a & h & wk & lw & Hh & Hs & Hweak & _ & Hown & _);
    [reflexivity | vm_compute; reflexivity |].
  vm_compute in Hh. injection Hh as <-. injection Hs as <-.
  vm_compute in Hweak. injection Hweak as <- _.
  destruct (Hown (op_reset 0%nat) (world_after [op_create 5%Z; op_reset 0%nat])
              (log_from [op_reset 0%nat] (world_after [op_create 5%Z])))
    as [Hstale Hnext]; [left; reflexivity | vm_compute; reflexivity |].
  split; [exact Hstale|].
  destruct (Hnext 7%Z (world_after [op_create 5%Z; op_reset 0%nat; op_create 7%Z])
              (log_from [op_create 7%Z] (world_after [op_create 5%Z; op_reset 0%nat])))
    as [_ Hb]; [vm_compute; reflexivity|].
  exact Hb.
Defined.

(** C4, as stated, fails once the counter has gone round: [W] is minted
    from the first element of slot 0 with stamp 1; after 2^32 retirements
    of the slot a later element is created in it, and [W] is reported
    alive. *)
Lemma weak_handle_staleness_counterexample :
  ∃ w l la,
    OwnerPtr_get_weak handle_one pool_one
    = Some (mkWeakPtr 1 (Some 0%nat), pool_one,
            [ev_load (var_generation 0) memory_order_relaxed])
    ∧ exec_ops (recycle 5%Z 7%Z (Z.to_nat 4294967295)) (@World_init Z) = Some (w, l)
    ∧ handles w !! S (Z.to_nat 4294967295) = Some handle_one
    ∧ is_alive (mkWeakPtr 1 (Some 0%nat)) (pool w) = Some (true, pool w, la).
Proof.
  assert (Hm : ∃ m, m = Z.to_nat 4294967295 ∧ Z.of_nat m = 4294967295%Z).
  { eexists. split; [reflexivity|]. by rewrite Z2Nat.id. }
  destruct Hm as (m & <- & Hm).
  destruct (recycle_run 0%Z Z_clear pool_id 5%Z 7%Z m) as (w & l & st & Hrun & _ & Hh & Hst & Hgen).
  rewrite Hm in Hgen. change (int32_wrap (2 + 4294967295)) with 1%Z in Hgen.
  exists w, l. eexists. split; [vm_compute; reflexivity|].
  split; [exact Hrun|]. split; [exact Hh|].
  rewrite (is_alive_Some (mkWeakPtr 1 (Some 0%nat)) (pool w) 0%nat st eq_refl Hst).
  by rewrite Hgen.
Qed.

Lemma generation_positive_until_wrap_witness :
  ∃ st,
    heap (pool (world_after [op_create 5%Z; op_reset 0%nat; op_create 7%Z])) !! 0%nat
    = Some st
    ∧ generation st = 2%Z
    ∧ (1 ≤ generation st)%Z
    ∧ ∃ la, is_alive (mkWeakPtr (-1) (Some 0%nat))
                     (pool (world_after [op_create 5%Z; op_reset 0%nat; op_create 7%Z]))
            = Some (false,
                    pool (world_after [op_create 5%Z; op_reset 0%nat; op_create 7%Z]), la).
Proof.
  destruct (generation_positive_until_wrap 0%Z Z_clear pool_id) as (_ & Hgen & _).
  destruct (Hgen [op_create 5%Z; op_reset 0%nat; op_create 7%Z]
              (world_after [op_create 5%Z; op_reset 0%nat; op_create 7%Z])
              (log_after [op_create 5%Z; op_reset 0%nat; op_create 7%Z])
              0%nat (mkStorage 7%Z (Some 1%nat) 2%Z))
    as (Hval & _ & Hpos & _ & (b & la & Hal & Hb) & _);
    [vm_compute; reflexivity | vm_compute; reflexivity |].
  eexists. split; [vm_compute; reflexivity|].
  split; [reflexivity|]. split; [apply Hpos; vm_compute; reflexivity|].
  exists la. destruct b; [|exact Hal].
  pose proof (proj1 Hb eq_refl) as Hf. vm_compute in Hf. discriminate Hf.
Defined.

(** C10, as stated, fails once the counter has gone round: after
    2^32 - 2 retirements slot 0 carries generation -1, which is below 1
    and equal to the empty sentinel; the handle minted from the element
    living there carries the sentinel stamp and is alive. *)
Lemma generation_positive_until_wrap_counterexample :
  ∃ w l st lw la,
    exec_ops (recycle 5%Z 5%Z (Z.to_nat 4294967293)) (@World_init Z) = Some (w, l)
    ∧ heap (pool w) !! 0%nat = Some st
    ∧ generation st = (-1)%Z
    ∧ ¬ (1 ≤ generation st)%Z
    ∧ generation st = weak_generation_ WeakPtr_default
    ∧ handles w !! S (Z.to_nat 4294967293) = Some handle_one
    ∧ OwnerPtr_get_weak handle_one (pool w) = Some (mkWeakPtr (-1) (Some 0%nat), pool w, lw)
    ∧ is_alive (mkWeakPtr (-1) (Some 0%nat)) (pool w) = Some (true, pool w, la).
Proof.
  assert (Hm : ∃ m, m = Z.to_nat 4294967293 ∧ Z.of_nat m = 4294967293%Z).
  { eexists. split; [reflexivity|]. by rewrite Z2Nat.id. }
  destruct Hm as (m & <- & Hm).
  destruct (recycle_run 0%Z Z_clear pool_id 5%Z 5%Z m) as (w & l & st & Hrun & _ & Hh & Hst & Hgen).
  rewrite Hm in Hgen. change (int32_wrap (2 + 4294967293)) with (-1)%Z in Hgen.
  exists w, l, st. eexists _, _.
  split; [exact Hrun|]. split; [exact Hst|]. split; [exact Hgen|].
  split; [rewrite Hgen; lia|]. split; [by rewrite Hgen|]. split; [exact Hh|]. split.
  - rewrite (OwnerPtr_get_weak_Some handle_one (pool w) 0%nat st eq_refl Hst).
    by rewrite Hgen.
  - rewrite (is_alive_Some (mkWeakPtr (-1) (Some 0%nat)) (pool w) 0%nat st eq_refl Hst).
    by rewrite Hgen.
Qed.

Lemma chunk_allocation_witness :
  ∃ p' l cells,
    get_storage 0%Z (@ObjectPool_default Z) = Some (0%nat, p', l)
    ∧ heap p' = cells
    ∧ length cells = 64%nat
    ∧ head_ p' = Some 1%nat
    ∧ chunk_list_ p' = Some 63%nat
    ∧ storage_count_ p' = 64%Z.
Proof.
  destruct (chunk_allocation 0%Z Z_clear pool_id) as [Halloc _].
  destruct (Halloc (@ObjectPool_default Z) eq_refl)
    as (p' & l & cells & Hg & Hheap & Hlen & _ & _ & _ & _ & Hhead & _ & Hcl & _ & Hcount & _).
  exists p', l, cells. split; [exact Hg|]. split; [exact Hheap|]. split; [exact Hlen|].
  split; [exact Hhead|]. split; [exact Hcl|].
  apply Hcount. vm_compute. split; discriminate.
Defined.

(** C6, as stated, fails for the counter: once 2^25 - 1 chunks are fully
    handed out, [storage_count_] is 2^31 - 64, and the next chunk
    allocation leaves -2^31 instead of 64 more. *)
Lemma chunk_allocation_counterexample :
  ∃ w l p' l',
    exec_ops (fill_chunks (Z.to_nat 33554431)) (@World_init Z) = Some (w, l)
    ∧ head_ (pool w) = None
    ∧ storage_count_ (pool w) = 2147483584%Z
    ∧ get_storage 0%Z (pool w) = Some (length (heap (pool w)), p', l')
    ∧ storage_count_ p' = (-2147483648)%Z
    ∧ storage_count_ p' ≠ (storage_count_ (pool w) + 64)%Z.
Proof.
  assert (Hm : ∃ m, m = Z.to_nat 33554431 ∧ Z.of_nat m = 33554431%Z).
  { eexists. split; [reflexivity|]. by rewrite Z2Nat.id. }
  destruct Hm as (m & <- & Hm).
  destruct (fill_chunks_run 0%Z Z_clear pool_id m (@World_init Z) eq_refl)
    as (w & l & Hrun & Hh & _ & Hc).
  rewrite Hm in Hc.
  change (int32_wrap (storage_count_ (pool World_init) + 64 * 33554431))
    with 2147483584%Z in Hc.
  specialize (Hc ltac:(lia)).
  pose proof (get_storage_empty 0%Z (pool w) Hh) as Hg.
  assert (Hcount : storage_count_ (allocate_chunk_pool 0%Z (pool w)) = (-2147483648)%Z).
  { unfold allocate_chunk_pool. cbn [storage_count_]. by rewrite Hc. }
  eexists w, l, _, _. split; [exact Hrun|]. split; [exact Hh|]. split; [exact Hc|].
  split; [exact Hg|]. split; [exact Hcount|]. rewrite Hcount, Hc. done.
Qed.



(** ** Witnesses for the further properties *)

Lemma pool_destructor_witness :
  ObjectPool_destroy pool_one
  = Some (tt, pool_one,
          [ev_load var_chunk_list memory_order_relaxed; ev_delete_chunk 0]).
Proof.
  destruct (pool_destructor 0%Z Z_clear pool_id [op_create 5%Z]
              (world_after [op_create 5%Z]) (log_after [op_create 5%Z]))
    as (k & Hlen & Hd & _); [vm_compute; reflexivity|].
  assert (k = 1%nat) as ->
    by (change (64 = 64 * k)%nat in Hlen; lia).
  exact Hd.
Defined.

Lemma storage_count_tracks_arena_witness :
  storage_count_ pool_one = 64%Z.
Proof.
  destruct (storage_count_tracks_arena 0%Z Z_clear pool_id [op_create 5%Z]
              (world_after [op_create 5%Z]) (log_after [op_create 5%Z]))
    as (_ & _ & Hc); [vm_compute; reflexivity|].
  apply Hc. vm_compute. discriminate.
Defined.

Lemma single_owner_witness :
  ∃ fl, free_list_is (heap (pool world_two)) (head_ (pool world_two)) fl
        ∧ NoDup fl ∧ 0%nat ∉ fl.
Proof.
  destruct (single_owner 0%Z Z_clear pool_id [op_create 5%Z; op_create 6%Z]
              world_two (log_after [op_create 5%Z; op_create 6%Z]))
    as (_ & fl & Hfl & Hnd & Hown); [vm_compute; reflexivity|].
  exists fl. split; [exact Hfl|]. split; [exact Hnd|].
  apply (Hown 0%nat). exists 0%nat, handle_one. split; reflexivity.
Defined.

Lemma statements_defined_witness :
  is_Some (exec_one (op_create 9%Z) world_two)
  ∧ is_Some (exec_one (op_reset 0) world_two)
  ∧ is_Some (exec_one (op_release 1) world_two).
Proof.
  destruct (statements_defined 0%Z Z_clear pool_id [op_create 5%Z; op_create 6%Z]
              world_two (log_after [op_create 5%Z; op_create 6%Z]))
    as (Hcreate & _ & _ & Hvar); [vm_compute; reflexivity|].
  assert (H0 : handles world_two !! 0%nat = Some handle_one)
    by (vm_compute; reflexivity).
  assert (H1 : handles world_two !! 1%nat = Some (mkOwnerPtr (Some 1%nat) (Some pool_id)))
    by (vm_compute; reflexivity).
  split; [exact (Hcreate 9%Z)|].
  split.
  - exact (proj1 (Hvar 0%nat handle_one H0)).
  - destruct (Hvar 1%nat _ H1) as (_ & _ & _ & Hlive & _).
    exact (proj1 (Hlive (ex_intro _ 1%nat eq_refl))).
Defined.

Lemma create_fresh_witness :
  ∃ a p' l,
    create 0%Z pool_id 9%Z (pool world_two) = Some (mkOwnerPtr (Some a) (Some pool_id), p', l)
    ∧ OwnerPtr_get (mkOwnerPtr (Some a) (Some pool_id)) p' = Some (9%Z, p', []).
Proof.
  destruct (create_fresh 0%Z Z_clear pool_id [op_create 5%Z; op_create 6%Z]
              world_two (log_after [op_create 5%Z; op_create 6%Z]) 9%Z)
    as (a & p' & l & Hc & _ & _ & Hget & _); [vm_compute; reflexivity|].
  exists a, p', l. split; [exact Hc|exact Hget].
Defined.


Lemma release_then_get_storage_witness :
  ∃ h' p1 l1 p2 l2,
    release Z_clear handle_one pool_one = Some (h', p1, l1)
    ∧ get_storage 0%Z p1 = Some (0%nat, p2, l2)
    ∧ head_ p2 = Some 1%nat.
Proof.
  destruct (release_then_get_storage 0%Z Z_clear pool_one handle_one 0%nat
              (mkStorage 5%Z None 1%Z) eq_refl eq_refl)
    as (h' & p1 & l1 & p2 & l2 & Hr & Hg & Hh & _).
  exists h', p1, l1, p2, l2. split; [exact Hr|]. split; [exact Hg|exact Hh].
Defined.

Lemma is_alive_unsafe_agrees_witness :
  ∃ l, is_alive_unsafe (mkWeakPtr 1 (Some 0%nat)) pool_one = Some (true, pool_one, l).
Proof.
  destruct (is_alive_unsafe_agrees 0%Z Z_clear (mkWeakPtr 1 (Some 0%nat)) pool_one)
    as (Hsame & _).
  apply Hsame. eexists. vm_compute. reflexivity.
Defined.

Lemma get_weak_alive_witness :
  ∃ la, is_alive (mkWeakPtr 1 (Some 0%nat)) pool_one = Some (true, pool_one, la).
Proof.
  destruct (get_weak_alive handle_one pool_one pool_one (mkWeakPtr 1 (Some 0%nat))
              [ev_load (var_generation 0) memory_order_relaxed])
    as (_ & _ & _ & _ & Halive & _); [vm_compute; reflexivity|].
  exact Halive.
Defined.

Lemma allocate_chunk_prepends_witness :
  ∃ p' l,
    allocate_chunk 0%Z pool_one = Some (64%nat, p', l)
    ∧ free_list_is (heap p') (head_ p') (seq 65 62 ++ seq 1 62).
Proof.
  destruct (allocate_chunk_prepends 0%Z pool_one (seq 1 62))
    as (p' & l & Ha & Hfl & _).
  - vm_compute. repeat (split; [reflexivity|eexists; split; [reflexivity|]]). reflexivity.
  - exists p', l. split; [exact Ha|exact Hfl].
Defined.

Lemma other_handles_untouched_witness :
  heap (pool (world_after [op_create 5%Z; op_create 6%Z; op_reset 1%nat])) !! 0%nat
  = heap (pool world_two) !! 0%nat.
Proof.
  apply (other_handles_untouched 0%Z Z_clear pool_id [op_create 5%Z; op_create 6%Z]
           world_two (world_after [op_create 5%Z; op_create 6%Z; op_reset 1%nat])
           (log_after [op_create 5%Z; op_create 6%Z])
           (log_from [op_reset 1%nat] world_two)
           (op_reset 1%nat) 0%nat 0%nat handle_one).
  - vm_compute. reflexivity.
  - vm_compute. reflexivity.
  - reflexivity.
  - reflexivity.
  - simpl. lia.
Defined.

Lemma stale_weak_read_witness :
  ∃ wk lw h' p' l,
    OwnerPtr_get_weak handle_one pool_one = Some (wk, pool_one, lw)
    ∧ release Z_clear handle_one pool_one = Some (h', p', l)
    ∧ WeakPtr_get wk p' = Some (0%Z, p', []).
Proof.
  destruct (stale_weak_read Z_clear pool_one handle_one 0%nat (mkStorage 5%Z None 1%Z)
              eq_refl eq_refl)
    as (wk & lw & h' & p' & l & Hw & Hr & Hget & _).
  exists wk, lw, h', p', l. split; [exact Hw|]. split; [exact Hr|exact Hget].
Defined.

Lemma move_transfers_witness :
  ∃ w1,
    exec_one (op_move 0) world_two = Some (w1, [])
    ∧ handles w1 !! 2%nat = Some handle_one
    ∧ exec_one (op_reset 0) w1 = Some (w1, []).
Proof.
  destruct (move_transfers 0%Z Z_clear pool_id world_two 0%nat handle_one eq_refl)
    as (w1 & Hm & _ & _ & Hnew & _ & Hreset).
  exists w1. split; [exact Hm|]. split; [exact Hnew|exact Hreset].
Defined.

Lemma write_then_read_witness :
  ∃ p', OwnerPtr_set handle_one 8%Z pool_one = Some (tt, p', [])
        ∧ OwnerPtr_get handle_one p' = Some (8%Z, p', []).
Proof.
  destruct (write_then_read pool_one handle_one 0%nat (mkStorage 5%Z None 1%Z) 8%Z
              eq_refl eq_refl)
    as (p' & Hset & Hget & _).
  exists p'. split; [exact Hset|exact Hget].
Defined.

Lemma create_empty_recycles_witness :
  ∃ h' p1 l1 p2 l2,
    release Z_clear handle_one pool_one = Some (h', p1, l1)
    ∧ create_empty 0%Z pool_id p1 = Some (handle_one, p2, l2)
    ∧ OwnerPtr_get handle_one p2 = Some (0%Z, p2, []).
Proof.
  destruct (create_empty_recycles 0%Z Z_clear pool_id pool_one handle_one 0%nat
              (mkStorage 5%Z None 1%Z) 7%Z eq_refl eq_refl)
    as (h' & p1 & l1 & p2 & l2 & p3 & l3 & Hr & Hc & Hget & _).
  exists h', p1, l1, p2, l2. split; [exact Hr|]. split; [exact Hc|exact Hget].
Defined.
